(** * Directory mirroring service: tree status, job registry, supervisor

    A shallow embedding of [main.go] (the [syncStorage] revision, which has
    the [remove] operation) and the properties of its registry, tree
    builder, progress parser and request handlers.

    Conventions of the embedding:
    - Go strings are byte strings, here [string] (a list of [ascii]);
    - a Go [map[string]T] is a [gmap string T]; ranging over a Go map visits
      its entries in an unspecified order, so a [range] loop is a function
      of a list of entries and is used at any permutation of
      [map_to_list];
    - [int] and [uint] are [Z] with the wrap-around of the word size
      written out; the word size is that of the target ([Arch32] or
      [Arch64]);
    - [*Dir] pointers are addresses into an explicit heap of [Dir] cells;
    - what the operating system answers (directory walk, remote listing,
      pipes, process exit) is an input of the function that asks. *)

From Stdlib Require Import ZArith String Ascii List Lia Bool.
From stdpp Require Import base option list gmap strings sorting.

Open Scope string_scope.
Open Scope list_scope.

#[local] Arguments String.append !_ _ : simpl nomatch.

(** ** Go library functions the program calls *)

Module strings.

(** [strings.HasPrefix(s, prefix)]:
    [len(s) >= len(prefix) && s[:len(prefix)] == prefix]. *)
Fixpoint HasPrefix (s pre : string) {struct pre} : bool :=
  match pre with
  | EmptyString => true
  | String c pre' =>
      match s with
      | EmptyString => false
      | String d s' => if Ascii.eqb d c then HasPrefix s' pre' else false
      end
  end.

(** [strings.TrimPrefix(s, prefix)]: [s] without the leading [prefix], or
    [s] itself when it does not start with [prefix]. *)
Fixpoint dropBytes (n : nat) (s : string) : string :=
  match n, s with
  | S k, String _ s' => dropBytes k s'
  | _, _ => s
  end.

Definition TrimPrefix (s pre : string) : string :=
  if HasPrefix s pre then dropBytes (String.length pre) s else s.

(** [strings.HasSuffix(s, suffix)]:
    [len(s) >= len(suffix) && s[len(s)-len(suffix):] == suffix]. *)
Definition HasSuffix (s suffix : string) : bool :=
  (String.length suffix <=? String.length s)%nat
  && String.eqb
       (substring (String.length s - String.length suffix)
                  (String.length suffix) s)
       suffix.

(** [strings.TrimSuffix(s, suffix)]: [s] without the trailing [suffix], or
    [s] itself when it does not end in [suffix]. *)
Definition TrimSuffix (s suffix : string) : string :=
  if HasSuffix s suffix
  then substring 0 (String.length s - String.length suffix) s
  else s.

(** [strings.Contains(s, substr)]: [substr] occurs at some offset of [s]. *)
Fixpoint Contains (s substr : string) : bool :=
  HasPrefix s substr
  || match s with
     | EmptyString => false
     | String _ s' => Contains s' substr
     end.

(** [strings.ReplaceAll(s, old, new)] for a non-empty [old]: the
    non-overlapping occurrences of [old] are replaced left to right.
    [skip] counts the bytes of a matched occurrence still to be dropped. *)
Fixpoint replaceFrom (skip : nat) (s old new : string) : string :=
  match s with
  | EmptyString => EmptyString
  | String c s' =>
      match skip with
      | S k => replaceFrom k s' old new
      | O =>
          if HasPrefix s old
          then (new ++ replaceFrom (String.length old - 1) s' old new)%string
          else String c (replaceFrom 0 s' old new)
      end
  end.

Definition ReplaceAll (s old new : string) : string :=
  replaceFrom 0 s old new.

End strings.

(** The word size of the target: Go's [int] and [uint] are 32 or 64 bits
    wide.  The repository's Dockerfile builds for arm64. *)
Inductive arch := Arch32 | Arch64.

Definition bits (a : arch) : Z :=
  match a with Arch32 => 32 | Arch64 => 64 end.

Definition maxInt (a : arch) : Z := 2 ^ (bits a - 1) - 1.
Definition minInt (a : arch) : Z := - 2 ^ (bits a - 1).

(** The conversion [uint(v)] of a signed [int] or [int64]: the value
    modulo [2^w]. *)
Definition uint (a : arch) (v : Z) : Z := v mod 2 ^ bits a.

Module strconv.

Definition isDigit (c : ascii) : bool :=
  (48 <=? nat_of_ascii c)%nat && (nat_of_ascii c <=? 57)%nat.

Definition digitVal (c : ascii) : Z := Z.of_nat (nat_of_ascii c) - 48.

(** The value of a run of decimal digits, [None] at the first byte that is
    not a digit (Go's [ErrSyntax]). *)
Fixpoint digits (acc : Z) (s : string) : option Z :=
  match s with
  | EmptyString => Some acc
  | String c s' =>
      if isDigit c then digits (acc * 10 + digitVal c) s' else None
  end.

(** [strconv.Atoi(s)]: an optional sign, then at least one decimal digit
    and nothing else; [None] stands for the error (syntax, or a value
    outside the range of [int]). *)
Definition Atoi (a : arch) (s : string) : option Z :=
  let '(neg, body) :=
    match s with
    | String "-" r => (true, r)
    | String "+" r => (false, r)
    | _ => (false, s)
    end in
  match body with
  | EmptyString => None
  | _ =>
      match digits 0 body with
      | None => None
      | Some n =>
          let v := if neg then (- n)%Z else n in
          if ((minInt a <=? v) && (v <=? maxInt a))%Z then Some v else None
      end
  end.

End strconv.

(** ** Data model *)

(** [type Sync struct].  [Context] and [Cancel] are the job's cancellation
    handle; what the program observes of it is whether the context is
    done, kept here as [Cancelled]. *)
Module Sync.
Record t := mk {
  Path : string;
  Progress : Z;
  Speed : Z;
  Downloaded : Z;
  TimeLeft : string;
  Cancelled : bool
}.

Definition setProgress (v : Z) (j : t) : t :=
  mk (Path j) v (Speed j) (Downloaded j) (TimeLeft j) (Cancelled j).
Definition setSpeed (v : Z) (j : t) : t :=
  mk (Path j) (Progress j) v (Downloaded j) (TimeLeft j) (Cancelled j).
Definition setDownloaded (v : Z) (j : t) : t :=
  mk (Path j) (Progress j) (Speed j) v (TimeLeft j) (Cancelled j).
Definition setTimeLeft (v : string) (j : t) : t :=
  mk (Path j) (Progress j) (Speed j) (Downloaded j) v (Cancelled j).
Definition cancel (j : t) : t :=
  mk (Path j) (Progress j) (Speed j) (Downloaded j) (TimeLeft j) true.
End Sync.

(** [type SyncResult struct], the view of a job sent to the dashboard. *)
Module SyncResult.
Record t := mk {
  Path : string;
  Progress : Z;
  Speed : Z;
  Downloaded : Z;
  TimeLeft : string
}.
End SyncResult.

(** ** The registry: [syncStorage.Data], every access under the mutex *)

(** The condition of the scan in [sync] and in [remove]:
    [value.Path == path || strings.HasPrefix(value.Path, path) ||
     strings.HasPrefix(path, value.Path)]. *)
Definition overlaps (path : string) (value : Sync.t) : bool :=
  String.eqb (Sync.Path value) path
  || strings.HasPrefix (Sync.Path value) path
  || strings.HasPrefix path (Sync.Path value).

(** [for _, value := range runningSyncs.Data { if ... { return false } }]:
    [true] when the loop reaches the early return.  The answer is the same
    for every order of the entries (lemma [scan_order]), so [sync] and
    [remove] run the loop on [map_to_list]. *)
Fixpoint scan (path : string) (entries : list (string * Sync.t)) : bool :=
  match entries with
  | [] => false
  | (_, value) :: rest => if overlaps path value then true else scan path rest
  end.

(** The job built at the head of [sync]; the fields the literal leaves out
    have Go's zero values. *)
Definition newSync (path : string) : Sync.t :=
  Sync.mk path 0 0 0 "" false.

(** [sync]: the result, the registry afterwards, and the job handed to
    [go startSync(...)] when there is one. *)
Definition sync (Data : gmap string Sync.t) (path : string)
  : bool * gmap string Sync.t * option Sync.t :=
  if scan path (map_to_list Data)
  then (false, Data, None)
  else (true, <[path := newSync path]> Data, Some (newSync path)).

(** What [os.RemoveAll] answers: [None] for success, [Some msg] for an
    error. *)
Definition fsError := option string.

(** The calls [remove] makes on the filesystem. *)
Inductive fsCall := RemoveAll (path : string).

(** [remove]: [(ok, err)] as in the source, and the filesystem calls made.
    The registry is only read.  The call on
    [filepath.Join(config.DataPath, path)] is recorded with the requested
    [path]. *)
Definition remove (removeAll : fsError) (Data : gmap string Sync.t)
    (path : string) : bool * option string * list fsCall :=
  if scan path (map_to_list Data)
  then (false, None, [])
  else
    match removeAll with
    | Some e => (false, Some ("remove all: " ++ e)%string, [RemoveAll path])
    | None => (true, None, [RemoveAll path])
    end.

(** ** The supervisor: [startSync] *)

(** What the operating system answers to the calls of [startSync]:
    [None] for success. *)
Record world := {
  mkdirAll : option string;
  stderrPipe : option string;
  stdoutPipe : option string;
  run : option string
}.

(** The effects of [startSync] outside the registry, in program order. *)
Inductive event :=
| MkdirAll              (* os.MkdirAll(syncPath, 0755) *)
| CancelProcess         (* cancel() of the process context *)
| GoWatcher             (* go func() { <-currentSync.Context.Done() ... } *)
| GoStderrReader        (* go func() { ... logger.Info(scanner.Text()) } *)
| GoProgressReader      (* go func() { ... scanner.Split(bufio.ScanWords) } *)
| Run                   (* cmd.Run(): the transfer process is spawned *)
| SignalTerm            (* cmd.Process.Signal(syscall.SIGTERM) *)
| Sleep (seconds : Z)   (* time.Sleep(time.Second * seconds) *)
| LogError (msg : string).

Definition startSync_body (w : world) : list event :=
  match mkdirAll w with
  | Some _ => [MkdirAll; LogError "create path failed"; CancelProcess]
  | None =>
      [MkdirAll; GoWatcher] ++
      match stderrPipe w with
      | Some _ => [LogError "stderr pipe"]
      | None =>
          [GoStderrReader] ++
          match stdoutPipe w with
          | Some _ => [LogError "get stdout pipe"]
          | None =>
              [GoProgressReader; Run] ++
              match run w with
              | Some _ => [LogError "wait command"]
              | None => []
              end
          end
      end
  end.

(** [startSync]: the body, then the deferred
    [delete(runningSyncs.Data, currentSync.Path)] under the lock, which
    runs on every return. *)
Definition startSync (w : world) (Data : gmap string Sync.t)
    (currentSync : Sync.t) : list event * gmap string Sync.t :=
  (startSync_body w, delete (Sync.Path currentSync) Data).

(** The cancellation watcher, from the moment
    [<-currentSync.Context.Done()] returns.  [cmd.Process] is a
    [*os.Process]: [nil] until the process has been started. *)
Record Process := { Pid : Z }.

Inductive outcome (A : Type) :=
| Returns (a : A)
| Panics (msg : string).
Arguments Returns {A} a.
Arguments Panics {A} msg.

(** [proc] is [cmd.Process] when the signal fires and [signalErr] what
    [Signal] answers.  Reading [cmd.Process.Pid] through a nil pointer
    panics. *)
Definition watcher (proc : option Process) (signalErr : option string)
  : outcome (list event) :=
  match proc with
  | None => Panics "invalid memory address or nil pointer dereference"
  | Some p =>
      if negb (Pid p =? -1)%Z
      then Returns
             ([SignalTerm] ++
              match signalErr with
              | Some _ => [LogError "terminate err"]
              | None => []
              end ++
              [Sleep 5; CancelProcess])
      else Returns []
  end.

(** ** The progress reader of [startSync] *)

Section progress.

Variable a : arch.

(** [units.FromHumanSize] of github.com/docker/go-units, which returns
    [(int64, error)]: [None] stands for the error. *)
Variable FromHumanSize : string -> option Z.

(** The body of the [for scanner.Scan()] loop on one token: the job
    afterwards and the values logged as parse failures. *)
Definition progressToken (text : string) (currentSync : Sync.t)
  : Sync.t * list string :=
  if strings.HasSuffix text "%" then
    match strconv.Atoi a (strings.TrimSuffix text "%") with
    | None => (currentSync, [text])
    | Some v => (Sync.setProgress (uint a v) currentSync, [])
    end
  else if strings.HasSuffix text "/s" then
    match FromHumanSize (strings.TrimSuffix text "/s") with
    | None => (currentSync, [text])
    | Some v => (Sync.setSpeed (uint a v) currentSync, [])
    end
  else if strings.Contains text ":" then
    (Sync.setTimeLeft text currentSync, [])
  else
    match strconv.Atoi a (strings.ReplaceAll text "," "") with
    | None => (currentSync, [text])
    | Some v => (Sync.setDownloaded (uint a v) currentSync, [])
    end.

(** The whole loop over the tokens [bufio.ScanWords] delivers. *)
Fixpoint progressReader (tokens : list string) (currentSync : Sync.t)
  : Sync.t * list string :=
  match tokens with
  | [] => (currentSync, [])
  | text :: rest =>
      let '(j, log1) := progressToken text currentSync in
      let '(j', log2) := progressReader rest j in
      (j', log1 ++ log2)
  end.

End progress.

(** ** The running service: registry and supervisor tasks *)

Inductive phase := Live | Gone.

(** A task started by [go startSync(...)]: the job it was given and
    whether it has returned. *)
Record task := { job : Sync.t; state : phase }.

Record system := {
  Data : gmap string Sync.t;
  tasks : list task
}.

Definition boot : system := {| Data := ∅; tasks := [] |}.

Definition spawned (j : option Sync.t) : list task :=
  match j with
  | Some j => [{| job := j; state := Live |}]
  | None => []
  end.

(** The atomic (mutex-guarded) actions on the registry.
    - [step_sync]: a call of [sync], which may insert and start a task;
    - [step_return]: a task returns; its body touches the registry only
      through the deferred delete, so the whole task is this one action;
    - [step_progress]: the progress reader of a live task writes a field
      of its job.  In the program the task and the registry hold the same
      [*Sync]; the model keeps the job's current fields in the registry
      entry, the only place they are read from;
    - [step_cancel]: [CancelSync] calls [Cancel] on the job registered for
      the path, if any. *)
Inductive step : system -> system -> Prop :=
| step_sync s path :
    step s {| Data := (sync (Data s) path).1.2;
              tasks := tasks s ++ spawned (sync (Data s) path).2 |}
| step_return s i t w :
    tasks s !! i = Some t -> state t = Live ->
    step s {| Data := (startSync w (Data s) (job t)).2;
              tasks := <[i := {| job := job t; state := Gone |}]> (tasks s) |}
| step_progress s i t j a F text :
    tasks s !! i = Some t -> state t = Live ->
    Data s !! Sync.Path (job t) = Some j ->
    step s {| Data := <[Sync.Path (job t) := (progressToken a F text j).1]>
                        (Data s);
              tasks := tasks s |}
| step_cancel s path :
    step s {| Data := alter Sync.cancel path (Data s); tasks := tasks s |}.

Inductive reachable : system -> Prop :=
| reachable_boot : reachable boot
| reachable_step s s' : reachable s -> step s s' -> reachable s'.

(** ** [path/filepath] on a Unix target (separator [/], no volume names) *)

Module filepath.

Definition slash : ascii := "/"%char.

(** The elements of [path] between separators; never empty. *)
Fixpoint elements (path : string) : list string :=
  match path with
  | EmptyString => [EmptyString]
  | String c rest =>
      match elements rest with
      | e :: es =>
          if Ascii.eqb c slash then EmptyString :: e :: es
          else String c e :: es
      | [] => [String c EmptyString]
      end
  end.

(** The element stack of [Clean], top first: empty and [.] elements are
    dropped, [..] removes the element before it, is dropped at the root
    and is kept at the head of a relative path. *)
Fixpoint cleanElements (rooted : bool) (stack : list string)
    (elems : list string) : list string :=
  match elems with
  | [] => rev stack
  | e :: es =>
      if String.eqb e "" || String.eqb e "." then
        cleanElements rooted stack es
      else if String.eqb e ".." then
        match stack with
        | top :: below =>
            if String.eqb top ".."
            then cleanElements rooted (e :: stack) es
            else cleanElements rooted below es
        | [] =>
            if rooted then cleanElements rooted stack es
            else cleanElements rooted (e :: stack) es
        end
      else cleanElements rooted (e :: stack) es
  end.

Fixpoint join (elems : list string) : string :=
  match elems with
  | [] => ""
  | [e] => e
  | e :: es => (e ++ "/" ++ join es)%string
  end.

(** [filepath.Clean]. *)
Definition Clean (path : string) : string :=
  let rooted := strings.HasPrefix path "/" in
  let body := join (cleanElements rooted [] (elements path)) in
  if rooted then String slash body
  else if String.eqb body "" then "." else body.

(** [filepath.Split]: [path] cut after its last separator. *)
Fixpoint Split (path : string) : string * string :=
  match path with
  | EmptyString => ("", "")
  | String c rest =>
      let '(dir, file) := Split rest in
      if negb (String.eqb dir "") then (String c dir, file)
      else if Ascii.eqb c slash then ("/", rest)
      else ("", String c rest)
  end.

(** [filepath.Dir]: all but the last element of [path], cleaned. *)
Definition Dir (path : string) : string := Clean (Split path).1.

(** [path] without its trailing separators. *)
Fixpoint trimSlashes (path : string) : string :=
  match path with
  | EmptyString => ""
  | String c rest =>
      let rest' := trimSlashes rest in
      if Ascii.eqb c slash && String.eqb rest' "" then ""
      else String c rest'
  end.

(** [filepath.Base]: the last element of [path]. *)
Definition Base (path : string) : string :=
  if String.eqb path "" then "."
  else
    let file := (Split (trimSlashes path)).2 in
    if String.eqb file "" then "/" else file.

(** [filepath.Join]: the elements from the first non-empty one on, joined
    by separators and cleaned; the empty string when all are empty. *)
Fixpoint Join (elem : list string) : string :=
  match elem with
  | [] => ""
  | e :: rest => if String.eqb e "" then Join rest else Clean (join elem)
  end.

End filepath.


(** ** Directory trees *)

(** [type Dir struct].  [Children] and [Parent] hold [*Dir] pointers:
    addresses of cells of the heap the tree is built in. *)
Module Dir.
Record t := mk {
  Path : string;
  Name : string;
  Children : gmap string nat;
  Parent : option nat;
  Synced : bool
}.

Definition setSynced (b : bool) (d : t) : t :=
  mk (Path d) (Name d) (Children d) (Parent d) b.
Definition addChild (name : string) (child : nat) (d : t) : t :=
  mk (Path d) (Name d) (<[name := child]> (Children d)) (Parent d) (Synced d).
End Dir.

(** The cells allocated by one build and the [pathMap] over them. *)
Record tree := {
  cells : list Dir.t;
  pathMap : gmap string nat
}.

Definition emptyTree : tree := {| cells := []; pathMap := ∅ |}.

Inductive result (A : Type) :=
| Ok (a : A)
| Error (msg : string).
Arguments Ok {A} a.
Arguments Error {A} msg.

(** [if parent != nil { parent.Children[item.Name] = &item }]. *)
Definition link (parent : option nat) (name : string) (child : nat)
    (h : list Dir.t) : list Dir.t :=
  match parent with
  | Some p => alter (Dir.addChild name child) p h
  | None => h
  end.

(** The statements both builders run for one directory: look the parent
    up, allocate the item, link it into the parent's children, and enter
    it in the map. *)
Definition addItem (synced : bool) (path name : string) (t : tree) : tree :=
  let parent := pathMap t !! filepath.Dir path in
  let item := Dir.mk path name ∅ parent synced in
  let addr := length (cells t) in
  {| cells := link parent name addr (cells t) ++ [item];
     pathMap := <[path := addr]> (pathMap t) |}.

(** [setNotSynced]: the recursion follows [Parent] pointers, so the model
    takes fuel; [None] when the fuel runs out or a pointer dangles. *)
Fixpoint setNotSynced (fuel : nat) (h : list Dir.t) (item : nat)
  : option (list Dir.t) :=
  match fuel with
  | O => None
  | S fuel' =>
      match h !! item with
      | None => None
      | Some d =>
          let h' := <[item := Dir.setSynced false d]> h in
          match Dir.Parent d with
          | Some parent => setNotSynced fuel' h' parent
          | None => Some h'
          end
      end
  end.

(** [for path, item := range pathMap { if _, ok := localPathMap[path]; !ok
    { setNotSynced(item) } }] over the entries in the order visited. *)
Fixpoint markNotSynced (fuel : nat) (localPathMap : gmap string nat)
    (entries : list (string * nat)) (h : list Dir.t)
  : option (list Dir.t) :=
  match entries with
  | [] => Some h
  | (path, item) :: rest =>
      match localPathMap !! path with
      | Some _ => markNotSynced fuel localPathMap rest h
      | None =>
          match setNotSynced fuel h item with
          | Some h' => markNotSynced fuel localPathMap rest h'
          | None => None
          end
      end
  end.

(** What the remote listing command answers: the errors of the pipes, of
    [cmd.Start] and of [cmd.Wait] ([None] for success) and the lines the
    scanner reads from its standard output. *)
Record remote := {
  stdoutPipeErr : option string;
  stderrPipeErr : option string;
  startErr : option string;
  lines : list string;
  waitErr : option string
}.

(** One entry handed to the callback of [filepath.WalkDir]: the path, the
    entry's name and kind, and the walk error if any. *)
Record walkEntry := {
  walkPath : string;
  walkName : string;
  walkIsDir : bool;
  walkErr : option string
}.

(** What the local filesystem answers to [buildLocalTree]. *)
Record localFS := {
  absErr : option string;
  absDir : string;
  walk : list walkEntry
}.


(** [path = strings.TrimPrefix(path, dir)], then a leading [/] unless it
    has one. *)
Definition rootedPath (dir path : string) : string :=
  let path := strings.TrimPrefix path dir in
  if strings.HasPrefix path "/" then path else ("/" ++ path)%string.

(** The callback of [filepath.WalkDir] in [buildLocalTree], folded over
    the walk; the first error aborts it. *)
Fixpoint walkDir (dir : string) (entries : list walkEntry) (t : tree)
  : result tree :=
  match entries with
  | [] => Ok t
  | e :: rest =>
      match walkErr e with
      | Some msg => Error ("walk dir: walk dir item: " ++ msg)%string
      | None =>
          if walkIsDir e then
            walkDir dir rest
              (addItem false (rootedPath dir (walkPath e)) (walkName e) t)
          else walkDir dir rest t
      end
  end.

Definition buildLocalTree (fs : localFS) : result tree :=
  match absErr fs with
  | Some msg => Error ("abs path: " ++ msg)%string
  | None => walkDir (absDir fs) (walk fs) emptyTree
  end.

Section remoteTree.

(** The order in which Go ranges over a map: any. *)
Variable range : gmap string nat -> list (string * nat).

(** The [for scanner.Scan()] loop of [buildRemoteTree]. *)
Definition scanLines (ls : list string) : tree :=
  foldl (fun t path => addItem true path (filepath.Base path) t)
        emptyTree ls.

(** [buildRemoteTree]: [None] when the model of [setNotSynced] does not
    return. *)
Definition buildRemoteTree (r : remote) (localPathMap : gmap string nat)
  : option (result tree) :=
  match stdoutPipeErr r with
  | Some msg => Some (Error ("get stdout pipe: " ++ msg)%string)
  | None =>
  match stderrPipeErr r with
  | Some msg => Some (Error ("get stdout pipe: " ++ msg)%string)
  | None =>
  match startErr r with
  | Some msg => Some (Error ("start command: " ++ msg)%string)
  | None =>
      let t := scanLines (lines r) in
      match waitErr r with
      | Some msg => Some (Error ("wait command: " ++ msg)%string)
      | None =>
          match markNotSynced (length (cells t)) localPathMap
                  (range (pathMap t)) (cells t) with
          | Some h => Some (Ok {| cells := h; pathMap := pathMap t |})
          | None => None
          end
      end
  end end end.

End remoteTree.

(** ** The request handlers *)

(** The [SyncResult] literal built from a registered job. *)
Definition view (value : Sync.t) : SyncResult.t :=
  SyncResult.mk (Sync.Path value) (Sync.Progress value) (Sync.Speed value)
                (Sync.Downloaded value) (Sync.TimeLeft value).

(** The [less] function handed to [sort.Slice]:
    [result.Results[i].Path > result.Results[j].Path], on bytes. *)
Definition less (x y : SyncResult.t) : bool :=
  String.ltb (SyncResult.Path y) (SyncResult.Path x).

Section listing.

(** The order in which Go ranges over the registry, and [sort.Slice]. *)
Variable rangeSyncs : gmap string Sync.t -> list (string * Sync.t).
Variable sortSlice : list SyncResult.t -> list SyncResult.t.

(** The handler [ListSyncs]: the [Results] of the response. *)
Definition ListSyncs (Data : gmap string Sync.t) : list SyncResult.t :=
  sortSlice (map (fun kv => view kv.2) (rangeSyncs Data)).

End listing.

(** What a handler gives back: a JSON response with its status and
    [error] field, or a Go error, which [customHTTPErrorHandler] answers
    with status 500. *)
Inductive response :=
| JSON (status : Z) (error : string)
| Failed (err : string).

Section handlers.

Variable range : gmap string nat -> list (string * nat).

(** [StartSync]: [bind] is what [c.Bind(request)] yields, [r] what the
    remote listing answers.  The result is the response, the registry
    afterwards and the job handed to [go startSync]; [None] when
    [buildRemoteTree] does not return. *)
Definition StartSync (r : remote) (Data : gmap string Sync.t)
    (bind : result string)
  : option (response * gmap string Sync.t * option Sync.t) :=
  match bind with
  | Error e => Some (Failed ("load request: " ++ e)%string, Data, None)
  | Ok path =>
      match buildRemoteTree range r ∅ with
      | None => None
      | Some (Error e) => Some (Failed ("list remote: " ++ e)%string, Data, None)
      | Some (Ok remotePath) =>
          match pathMap remotePath !! path with
          | None => Some (JSON 400 "invalid path", Data, None)
          | Some _ =>
              let '(ok, Data', started) := sync Data path in
              if ok then Some (JSON 200 "", Data', started)
              else Some (JSON 409 "sync already started", Data', started)
          end
      end
  end.

(** [Remove]: the response and the calls made on the filesystem. *)
Definition Remove (fs : localFS) (removeAll : fsError)
    (Data : gmap string Sync.t) (bind : result string)
  : response * list fsCall :=
  match bind with
  | Error e => (Failed ("load request: " ++ e)%string, [])
  | Ok path =>
      match buildLocalTree fs with
      | Error e => (Failed ("list local: " ++ e)%string, [])
      | Ok localPath =>
          match pathMap localPath !! path with
          | None => (JSON 400 "invalid path", [])
          | Some _ =>
              match remove removeAll Data path with
              | (_, Some e, calls) =>
                  (Failed ("remove path: " ++ e)%string, calls)
              | (true, None, calls) => (JSON 200 "", calls)
              | (false, None, calls) => (JSON 409 "sync in progress", calls)
              end
          end
      end
  end.

End handlers.

(** ** The vocabulary of the properties *)

(** [s] without the bytes equal to [c]. *)
Fixpoint withoutByte (c : ascii) (s : string) : string :=
  match s with
  | EmptyString => EmptyString
  | String d s' =>
      if Ascii.eqb d c then withoutByte c s' else String d (withoutByte c s')
  end.

(** [p] is a prefix of [q], byte by byte. *)
Definition isPrefixOf (p q : string) : Prop := exists t, q = (p ++ t)%string.

(** The three ways a registered job's path can clash with a requested
    path. *)
Definition clashes (path : string) (value : Sync.t) : Prop :=
  Sync.Path value = path
  \/ isPrefixOf path (Sync.Path value)
  \/ isPrefixOf (Sync.Path value) path.

Record invariant (s : system) : Prop := {
  inv_key : forall p v, Data s !! p = Some v -> Sync.Path v = p;
  inv_live : forall p, is_Some (Data s !! p) ->
    exists i t, tasks s !! i = Some t /\ state t = Live
                /\ Sync.Path (job t) = p;
  inv_registered : forall i t, tasks s !! i = Some t -> state t = Live ->
    is_Some (Data s !! Sync.Path (job t));
  inv_unique : forall i i' t t',
    tasks s !! i = Some t -> tasks s !! i' = Some t' ->
    state t = Live -> state t' = Live ->
    Sync.Path (job t) = Sync.Path (job t') -> i = i';
  inv_disjoint : forall p q, p <> q ->
    is_Some (Data s !! p) -> is_Some (Data s !! q) ->
    ~ isPrefixOf p q /\ ~ isPrefixOf q p
}.

(** Two paths name nested subtrees when the elements of one are a leading
    part of the elements of the other. *)
Definition nestedIn (inner outer : string) : Prop :=
  filepath.elements outer `prefix_of` filepath.elements inner.

(** [text] ends in [suffix]. *)
Definition endsWith (text suffix : string) : Prop :=
  exists body, text = (body ++ suffix)%string.

(** [text] has an occurrence of [substr]. *)
Definition hasSubstring (text substr : string) : Prop :=
  exists u v, text = (u ++ substr ++ v)%string.

(** What [sort.Slice] promises for [less]: the result holds the same
    elements and no later element is [less] than an earlier one. *)
Definition sortsBy {A} (less : A -> A -> bool)
    (sortSlice : list A -> list A) : Prop :=
  forall l, sortSlice l ≡ₚ l
            /\ StronglySorted (fun x y => less y x = false) (sortSlice l).

(** The views of the registered jobs, in the order of [map_to_list]. *)
Definition jobViews (Data : gmap string Sync.t) : list SyncResult.t :=
  map (fun kv : string * Sync.t => view kv.2) (map_to_list Data).

(** Every [Parent] pointer of the heap points to an older cell. *)
Definition parentsOlder (h : list Dir.t) : Prop :=
  forall i d a, h !! i = Some d -> Dir.Parent d = Some a -> a < i.

(** [b] is the cell [a] or is reached from it along [Parent] pointers. *)
Inductive onChain (h : list Dir.t) (b : nat) : nat -> Prop :=
| onChain_here : onChain h b b
| onChain_up a d pa :
    h !! a = Some d -> Dir.Parent d = Some pa -> onChain h b pa ->
    onChain h b a.

(** [h'] is [h] with [Synced] cleared at the cells in [S] and nothing else
    changed. *)
Definition marks (h h' : list Dir.t) (S : nat -> Prop) : Prop :=
  length h' = length h
  /\ forall i d, h !! i = Some d ->
       exists b, h' !! i = Some (Dir.setSynced b d)
                 /\ (b = false <-> Dir.Synced d = false \/ S i).

(** What holds of every tree the builders produce, whatever the paths. *)
Record built (t : tree) : Prop := {
  built_valid : forall p a, pathMap t !! p = Some a -> a < length (cells t);
  built_older : parentsOlder (cells t)
}.

(** The tree read from a listing without repeated lines: cell [i] is the
    directory of line [i], and its [Parent] is the cell of the line naming
    its parent directory, when that line came before. *)
Definition listed (l : list string) (t : tree) : Prop :=
  length (cells t) = length l
  /\ (forall p a, pathMap t !! p = Some a <-> l !! a = Some p)
  /\ forall i p, l !! i = Some p ->
       exists d, cells t !! i = Some d
                 /\ Dir.Path d = p /\ Dir.Synced d = true
                 /\ forall a, Dir.Parent d = Some a <->
                              a < i /\ l !! a = Some (filepath.Dir p).

(** The listing command ran and exited without error. *)
Definition listingSucceeds (r : remote) : Prop :=
  stdoutPipeErr r = None /\ stderrPipeErr r = None
  /\ startErr r = None /\ waitErr r = None.

(** No directory is listed before its parent directory. *)
Definition parentFirst (l : list string) : Prop :=
  forall a pa q, l !! a = Some q -> l !! pa = Some (filepath.Dir q) -> pa <= a.

(** [p] is [q] or one of the listed directories above [q]: its parent,
    the parent of its parent, and so on as long as they are listed. *)
Inductive pathChain (l : list string) (p : string) : string -> Prop :=
| pathChain_self : pathChain l p p
| pathChain_up q :
    filepath.Dir q ∈ l -> pathChain l p (filepath.Dir q) -> pathChain l p q.

(** [pathMap[p].Synced], as [ListDirs] reads it. *)
Definition syncedAt (t : tree) (p : string) : option bool :=
  match pathMap t !! p with
  | Some a => Dir.Synced <$> cells t !! a
  | None => None
  end.

(** The directories of a walk, as [buildLocalTree] names them. *)
Fixpoint walkedDirs (dir : string) (entries : list walkEntry) : list string :=
  match entries with
  | [] => []
  | e :: rest =>
      if walkIsDir e then rootedPath dir (walkPath e) :: walkedDirs dir rest
      else walkedDirs dir rest
  end.

(** A sort that keeps what [sort.Slice] promises for [less]. *)
Definition descending (x y : SyncResult.t) : Prop := less y x = false.

(** ** Inputs of the examples *)

Definition exampleListing : remote := {|
  stdoutPipeErr := None; stderrPipeErr := None; startErr := None;
  lines := ["/a"; "/a/b"; "/a/b/c"];
  waitErr := None
|}.

Definition exampleLocal : gmap string nat :=
  list_to_map [("/a", 0); ("/a/b", 1)].

Definition exampleFS : localFS := {|
  absErr := None;
  absDir := "/data";
  walk := [ {| walkPath := "/data"; walkName := "data";
               walkIsDir := true; walkErr := None |};
            {| walkPath := "/data/a"; walkName := "a";
               walkIsDir := true; walkErr := None |};
            {| walkPath := "/data/a/f.bin"; walkName := "f.bin";
               walkIsDir := false; walkErr := None |} ]
|}.

Definition exampleLocalTree : tree :=
  match buildLocalTree exampleFS with
  | Ok t => t
  | Error _ => emptyTree
  end.

(** A size parser that rejects every input. *)
Definition noSizes (s : string) : option Z := None.

Definition twoJobs : system :=
  {| Data := <["/c" := newSync "/c"]> (<["/a" := newSync "/a"]> ∅);
     tasks := [ {| job := newSync "/a"; state := Live |};
                {| job := newSync "/c"; state := Live |} ] |}.

(** ** The other handlers *)

(** [type DirResult struct], one line of the answer of [ListDirs]. *)
Module DirResult.
Record t := mk {
  Path : string;
  Synced : bool
}.
End DirResult.

(** [DirResult{Path: pathMap[k].Path, Synced: pathMap[k].Synced}]; [None]
    when [pathMap[k]] is nil or dangles. *)
Definition dirResult (t : tree) (k : string) : option DirResult.t :=
  match pathMap t !! k with
  | Some a =>
      match cells t !! a with
      | Some d => Some (DirResult.mk (Dir.Path d) (Dir.Synced d))
      | None => None
      end
  | None => None
  end.

Section dirs.

(** The orders in which Go ranges over the map in [buildRemoteTree] and in
    [ListDirs], and [sort.Strings]. *)
Variable rangeMark : gmap string nat -> list (string * nat).
Variable rangeKeys : gmap string nat -> list (string * nat).
Variable sortStrings : list string -> list string.

(** [ListDirs]: the [Results] of the answer with status 200, or the error
    it returns; [None] when it does not return. *)
Definition ListDirs (fs : localFS) (r : remote)
  : option (result (list DirResult.t)) :=
  match buildLocalTree fs with
  | Error e => Some (Error ("list local: " ++ e)%string)
  | Ok localPathMap =>
      match buildRemoteTree rangeMark r (pathMap localPathMap) with
      | None => None
      | Some (Error e) => Some (Error ("list remote: " ++ e)%string)
      | Some (Ok t) =>
          let keys := sortStrings (rangeKeys (pathMap t)).*1 in
          match mapM (dirResult t) keys with
          | Some results => Some (Ok results)
          | None => None
          end
      end
  end.

End dirs.

(** [CancelSync]: the response and the registry afterwards.  [Cancel] is
    called on the job registered for exactly the requested path. *)
Definition CancelSync (Data : gmap string Sync.t) (bind : result string)
  : response * gmap string Sync.t :=
  match bind with
  | Error e => (Failed ("load request: " ++ e)%string, Data)
  | Ok path =>
      (JSON 200 "",
       match Data !! path with
       | Some currentSync => <[path := Sync.cancel currentSync]> Data
       | None => Data
       end)
  end.

(** ** Configuration: [testConfig] *)

(** [type Config struct]. *)
Record Config := {
  Host : string;
  Port : Z;
  LogLevel : string;
  DataPath : string;
  RemoteHost : string;
  RemotePort : Z;
  RemoteUser : string;
  RsyncSSHKey : string;
  LsSSHKey : string;
  KnownHosts : string
}.

(** [if cond { errs = append(errs, errors.New(msg)) }]. *)
Definition appendIf (cond : bool) (msg : string) (errs : list string)
  : list string :=
  if cond then errs ++ [msg] else errs.

(** The slice [errs] of [testConfig] when it reaches [errors.Join]. *)
Definition configErrors (config : Config) : list string :=
  let errs := [] in
  let errs := appendIf (String.eqb (DataPath config) "")
                "data path must be specified" errs in
  let errs := appendIf (String.eqb (RemoteUser config) "")
                "remote user must be specified" errs in
  let errs := appendIf (RemotePort config =? 0)%Z
                "remote port must be specified" errs in
  let errs := appendIf (String.eqb (RemoteUser config) "")
                "remote user must be specified" errs in
  let errs := appendIf (String.eqb (RsyncSSHKey config) "")
                "rsync ssh key file must be specified" errs in
  let errs := appendIf (String.eqb (LsSSHKey config) "")
                "ls ssh key file must be specified" errs in
  let errs := appendIf (String.eqb (KnownHosts config) "")
                "known host file  must be specified" errs in
  errs.

Definition newline : string := String "010"%char EmptyString.

(** [errors.Join]: nil ([None]) for no errors, else one error whose text
    is the texts joined by newlines. *)
Fixpoint joinErrors (errs : list string) : string :=
  match errs with
  | [] => ""
  | [e] => e
  | e :: rest => (e ++ newline ++ joinErrors rest)%string
  end.

Definition errors_Join (errs : list string) : option string :=
  match errs with
  | [] => None
  | _ => Some (joinErrors errs)
  end.

Definition testConfig (config : Config) : option string :=
  errors_Join (configErrors config).

(** ** The generator of the embedding file: [frontend/generate.go] *)

Module generate.

Definition quote : string := String "034"%char EmptyString.

(** The constants [header] and [footer]. *)
Definition header : string :=
  (newline ++ newline ++ "import " ++ quote ++ "embed" ++ quote
   ++ newline ++ newline ++ "//go:embed ")%string.

Definition footer : string :=
  (newline ++ "var content embed.FS" ++ newline)%string.

(** What the process finds: [os.Args], whether [SKIP_NPM] is set, and what
    [cmd.Run] and [os.WriteFile] answer. *)
Record world := {
  Args : list string;
  skipNpm : bool;
  npmRun : option string;
  writeFile : option string
}.

(** What [main] does, in program order; [Fatal] is [log.Fatalln], which
    ends the process. *)
Inductive event :=
| NpmRunBuild (dir : string)
| WriteFile (name data : string)
| Fatal (msg : string).

Definition main (w : world) : list event :=
  match Args w with
  | [_; package; ui; output] =>
      let build :=
        if skipNpm w then ([], None)
        else ([NpmRunBuild ui], npmRun w) in
      match build.2 with
      | Some e => build.1 ++ [Fatal e]
      | None =>
          let data := ("package " ++ package ++ header
                       ++ filepath.Join [ui; "build/*"] ++ footer)%string in
          build.1 ++ [WriteFile output data] ++
          match writeFile w with
          | Some e => [Fatal e]
          | None => []
          end
      end
  | _ => [Fatal "Usage: generate go_package ./ui_path ./output_gen.go"]
  end.

End generate.

(** ** More vocabulary *)

(** Every entry of a node's [Children] points to a cell whose [Parent] is
    that node and whose [Name] is the entry's key. *)
Definition childrenLinked (h : list Dir.t) : Prop :=
  forall p dp n c, h !! p = Some dp -> Dir.Children dp !! n = Some c ->
    exists dc, h !! c = Some dc /\ Dir.Parent dc = Some p /\ Dir.Name dc = n.

(** Every key of the map points to a cell with that path. *)
Definition keysNamed (t : tree) : Prop :=
  forall p a, pathMap t !! p = Some a ->
    exists d, cells t !! a = Some d /\ Dir.Path d = p.

(** The root can be made absolute and no entry of the walk carries an
    error. *)
Definition noWalkError (fs : localFS) : Prop :=
  absErr fs = None /\ Forall (fun e => walkErr e = None) (walk fs).

(** The facts a tree keeps through every [addItem]. *)
Record sound (synced : bool) (t : tree) : Prop := {
  sound_built : built t;
  sound_keys : keysNamed t;
  sound_children : childrenLinked (cells t);
  sound_flag : forall a d, cells t !! a = Some d -> Dir.Synced d = synced
}.

(** ** More inputs of the examples *)

Definition exampleRemoteTree : tree :=
  match buildRemoteTree map_to_list exampleListing exampleLocal with
  | Some (Ok t) => t
  | _ => emptyTree
  end.

Definition exampleLocalAll : gmap string nat :=
  list_to_map [("/a", 0); ("/a/b", 1); ("/a/b/c", 2)].

Definition exampleSyncedTree : tree :=
  match buildRemoteTree map_to_list exampleListing exampleLocalAll with
  | Some (Ok t) => t
  | _ => emptyTree
  end.

(** The order [sort.Strings] leaves: no later string is less than an
    earlier one. *)
Definition ascending (x y : string) : Prop := String.ltb y x = false.

Definition exampleDirs : list DirResult.t :=
  match ListDirs map_to_list map_to_list (merge_sort String.le)
          exampleFS exampleListing with
  | Some (Ok results) => results
  | _ => []
  end.

(** [config] with the fields [testConfig] does not read replaced. *)
Definition withUnchecked (host : string) (port : Z) (level rhost : string)
    (config : Config) : Config :=
  {| Host := host; Port := port; LogLevel := level;
     DataPath := DataPath config; RemoteHost := rhost;
     RemotePort := RemotePort config; RemoteUser := RemoteUser config;
     RsyncSSHKey := RsyncSSHKey config; LsSSHKey := LsSSHKey config;
     KnownHosts := KnownHosts config |}.

(** A job whose standard error pipe cannot be set up. *)
Definition pipeFailure : world :=
  {| mkdirAll := None; stderrPipe := Some "too many open files";
     stdoutPipe := None; run := None |}.

(** * Properties *)

(** ** [path/filepath] on small inputs *)

Module filepath_tests.
Import filepath.
Example Dir_nested : Dir "/a/b/c" = "/a/b".
Proof. reflexivity. Qed.
Example Dir_top : Dir "/a" = "/".
Proof. reflexivity. Qed.
Example Dir_root : Dir "/" = "/".
Proof. reflexivity. Qed.
Example Dir_relative : Dir "a" = ".".
Proof. reflexivity. Qed.
Example Dir_empty : Dir "" = ".".
Proof. reflexivity. Qed.
Example Dir_unclean : Dir "/a//b/../c/" = "/a/c".
Proof. reflexivity. Qed.
Example Clean_dotdot : Clean "../a/../../b" = "../../b".
Proof. reflexivity. Qed.
Example Base_nested : Base "/a/b/" = "b".
Proof. reflexivity. Qed.
Example Base_root : Base "///" = "/".
Proof. reflexivity. Qed.
Example Base_empty : Base "" = ".".
Proof. reflexivity. Qed.
End filepath_tests.

(** ** The string functions *)

Section string_facts.

Lemma string_app_nil_r (s : string) : (s ++ "")%string = s.
Proof. induction s as [|c s IH]; simpl; congruence. Qed.

Lemma string_app_assoc (s t u : string) :
  ((s ++ t) ++ u)%string = (s ++ (t ++ u))%string.
Proof. induction s as [|c s IH]; simpl; congruence. Qed.

Lemma string_length_app (s t : string) :
  String.length (s ++ t) = String.length s + String.length t.
Proof. induction s as [|c s IH]; simpl; congruence. Qed.

Lemma HasPrefix_app (pre t : string) :
  strings.HasPrefix (pre ++ t) pre = true.
Proof.
  induction pre as [|c pre IH]; simpl; [done|].
  by rewrite Ascii.eqb_refl.
Qed.

Lemma HasPrefix_spec (s pre : string) :
  strings.HasPrefix s pre = true <-> exists t, s = (pre ++ t)%string.
Proof.
  split.
  - revert s. induction pre as [|c pre IH]; intros s H; simpl in *.
    + by exists s.
    + destruct s as [|d s]; [done|].
      destruct (Ascii.eqb d c) eqn:E; [|done].
      apply Ascii.eqb_eq in E as ->.
      destruct (IH _ H) as [t ->]. by exists t.
  - intros [t ->]. apply HasPrefix_app.
Qed.

Lemma HasPrefix_refl (s : string) : strings.HasPrefix s s = true.
Proof. apply HasPrefix_spec. exists "". by rewrite string_app_nil_r. Qed.

Lemma substring_skip (t u : string) (n : nat) :
  substring (String.length t) n (t ++ u) = substring 0 n u.
Proof. induction t as [|c t IH]; simpl; [done|]. apply IH. Qed.

Lemma substring_all (u : string) : substring 0 (String.length u) u = u.
Proof. induction u as [|c u IH]; simpl; congruence. Qed.

Lemma substring_take (t u : string) :
  substring 0 (String.length t) (t ++ u) = t.
Proof.
  induction t as [|c t IH]; simpl; [by destruct u|]. by rewrite IH.
Qed.

Lemma substring_split (s : string) (n : nat) :
  n <= String.length s ->
  s = (substring 0 n s ++ substring n (String.length s - n) s)%string.
Proof.
  revert n. induction s as [|c s IH]; intros n Hn; simpl in *.
  - by destruct n.
  - destruct n as [|n]; simpl.
    + by rewrite substring_all.
    + f_equal. apply IH. lia.
Qed.

Lemma HasSuffix_app (t suffix : string) :
  strings.HasSuffix (t ++ suffix) suffix = true.
Proof.
  unfold strings.HasSuffix. rewrite string_length_app.
  apply andb_true_iff. split.
  - apply Nat.leb_le. lia.
  - replace (String.length t + String.length suffix - String.length suffix)
      with (String.length t) by lia.
    rewrite substring_skip, substring_all. apply String.eqb_refl.
Qed.

Lemma HasSuffix_spec (s suffix : string) :
  strings.HasSuffix s suffix = true <-> exists t, s = (t ++ suffix)%string.
Proof.
  split.
  - unfold strings.HasSuffix. intros [Hlen Heq]%andb_true_iff.
    apply Nat.leb_le in Hlen. apply String.eqb_eq in Heq.
    exists (substring 0 (String.length s - String.length suffix) s).
    pose proof (substring_split s (String.length s - String.length suffix))
      as Hsplit.
    replace (String.length s - (String.length s - String.length suffix))
      with (String.length suffix) in Hsplit by lia.
    rewrite Heq in Hsplit. apply Hsplit. lia.
  - intros [t ->]. apply HasSuffix_app.
Qed.

Lemma TrimSuffix_app (t suffix : string) :
  strings.TrimSuffix (t ++ suffix) suffix = t.
Proof.
  unfold strings.TrimSuffix. rewrite HasSuffix_app, string_length_app.
  replace (String.length t + String.length suffix - String.length suffix)
    with (String.length t) by lia.
  apply substring_take.
Qed.

Lemma Contains_unfold (s substr : string) :
  strings.Contains s substr =
  strings.HasPrefix s substr
  || match s with
     | EmptyString => false
     | String _ s' => strings.Contains s' substr
     end.
Proof. by destruct s. Qed.

Lemma Contains_spec (s substr : string) :
  strings.Contains s substr = true <->
  exists u v, s = (u ++ substr ++ v)%string.
Proof.
  split.
  - induction s as [|c s IH]; simpl.
    + rewrite orb_false_r. intros [t Ht]%HasPrefix_spec. by exists "", t.
    + intros [H|H]%orb_true_iff.
      * apply HasPrefix_spec in H as [t Ht]. by exists "", t.
      * destruct (IH H) as (u & v & ->). by exists (String c u), v.
  - intros (u & v & ->). induction u as [|c u IH].
    + simpl. rewrite Contains_unfold, HasPrefix_app. done.
    + simpl. rewrite IH. apply orb_true_r.
Qed.

Lemma ReplaceAll_comma (s : string) :
  strings.ReplaceAll s "," "" = withoutByte ","%char s.
Proof.
  unfold strings.ReplaceAll.
  induction s as [|d s IH]; simpl; [done|].
  destruct (Ascii.eqb d ","%char); simpl; by rewrite IH.
Qed.

End string_facts.

(** ** The overlap scan *)

Lemma overlaps_clashes (path : string) (value : Sync.t) :
  overlaps path value = true <-> clashes path value.
Proof.
  unfold overlaps, clashes, isPrefixOf.
  rewrite !orb_true_iff, String.eqb_eq, !HasPrefix_spec. tauto.
Qed.

Lemma scan_true (path : string) (entries : list (string * Sync.t)) :
  scan path entries = true <->
  exists kv, kv ∈ entries /\ overlaps path kv.2 = true.
Proof.
  induction entries as [|[k v] rest IH]; simpl.
  - split; [done|]. intros (kv & H & _). by apply elem_of_nil in H.
  - destruct (overlaps path v) eqn:E.
    + split; [|done]. intros _. exists (k, v). split; [left|done].
    + rewrite IH. split.
      * intros (kv & H & Ho). exists kv. split; [by right|done].
      * intros (kv & H & Ho). apply elem_of_cons in H as [->|H].
        -- simpl in Ho. congruence.
        -- by exists kv.
Qed.

(** The scan does not depend on the order in which the map is ranged
    over. *)
Lemma scan_order (path : string) (l1 l2 : list (string * Sync.t)) :
  l1 ≡ₚ l2 -> scan path l1 = scan path l2.
Proof.
  intros Hp. apply eq_true_iff_eq. rewrite !scan_true.
  by setoid_rewrite Hp.
Qed.

Lemma scan_registry (path : string) (Data : gmap string Sync.t) :
  scan path (map_to_list Data) = true <->
  exists k v, Data !! k = Some v /\ clashes path v.
Proof.
  rewrite scan_true. split.
  - intros ([k v] & H & Ho). exists k, v.
    split; [by apply elem_of_map_to_list|by apply overlaps_clashes].
  - intros (k & v & H & Ho). exists (k, v).
    split; [by apply elem_of_map_to_list|by apply overlaps_clashes].
Qed.

Lemma scan_registry_false (path : string) (Data : gmap string Sync.t) :
  scan path (map_to_list Data) = false <->
  forall k v, Data !! k = Some v -> ~ clashes path v.
Proof.
  rewrite <- not_true_iff_false, scan_registry. split.
  - intros H k v Hk Hc. apply H. eauto.
  - intros H (k & v & Hk & Hc). by apply (H k v).
Qed.

Lemma sync_refuses (Data : gmap string Sync.t) (path : string) :
  (exists k v, Data !! k = Some v /\ clashes path v) ->
  sync Data path = (false, Data, None).
Proof. intros H%scan_registry. unfold sync. by rewrite H. Qed.

Lemma sync_inserts (Data : gmap string Sync.t) (path : string) :
  (forall k v, Data !! k = Some v -> ~ clashes path v) ->
  sync Data path = (true, <[path := newSync path]> Data, Some (newSync path)).
Proof. intros H%scan_registry_false. unfold sync. by rewrite H. Qed.

(** ** The progress reader keeps a job's path *)

Lemma progressToken_Path (a : arch) (F : string -> option Z)
    (text : string) (j : Sync.t) :
  Sync.Path (progressToken a F text j).1 = Sync.Path j.
Proof.
  unfold progressToken.
  repeat (case_match; simpl; try done).
Qed.

(** ** The invariant of the running service *)

Lemma invariant_boot : invariant boot.
Proof.
  split; simpl.
  - intros p v H. by rewrite lookup_empty in H.
  - intros p [v H]. by rewrite lookup_empty in H.
  - intros i t H. by rewrite lookup_nil in H.
  - intros i i' t t' H. by rewrite lookup_nil in H.
  - intros p q _ [v H]. by rewrite lookup_empty in H.
Qed.

Lemma invariant_sync (s : system) (path : string) :
  invariant s ->
  invariant {| Data := (sync (Data s) path).1.2;
               tasks := tasks s ++ spawned (sync (Data s) path).2 |}.
Proof.
  intros I. unfold sync.
  destruct (scan path (map_to_list (Data s))) eqn:Hscan; simpl.
  { rewrite app_nil_r. by destruct s, I. }
  pose proof (proj1 (scan_registry_false _ _) Hscan) as Hfree.
  assert (Hnew : Data s !! path = None).
  { destruct (Data s !! path) as [v|] eqn:E; [|done].
    exfalso. apply (Hfree _ _ E). left. by apply (inv_key _ I). }
  split; simpl.
  - intros p v. rewrite lookup_insert. case_decide; [|by apply (inv_key _ I)].
    intros [= <-]. by subst.
  - intros p. rewrite lookup_insert. case_decide as Hp.
    + intros _. exists (length (tasks s)), {| job := newSync path; state := Live |}.
      split; [|by subst].
      rewrite lookup_app_r by lia. by rewrite Nat.sub_diag.
    + intros H. destruct (inv_live _ I _ H) as (i & t & Hi & Ht & Hpt).
      exists i, t. split; [|done]. by apply lookup_app_l_Some.
  - intros i t Hi Ht. rewrite lookup_insert. case_decide; [by eexists|].
    apply lookup_app_Some in Hi as [Hi|[Hlen Hi]].
    + by apply (inv_registered _ I i).
    + apply list_lookup_singleton_Some in Hi as [_ <-]. simpl in *. done.
  - assert (Hfresh : forall i t, tasks s !! i = Some t -> state t = Live ->
                                 Sync.Path (job t) <> path).
    { intros i t Hi Ht Heq.
      destruct (inv_registered _ I _ _ Hi Ht) as [v Hv].
      rewrite Heq in Hv. congruence. }
    intros i i' t t' Hi Hi' Ht Ht' Heq.
    apply lookup_app_Some in Hi as [Hi|[Hlen Hi]];
      apply lookup_app_Some in Hi' as [Hi'|[Hlen' Hi']].
    + by apply (inv_unique _ I i i' t t').
    + apply list_lookup_singleton_Some in Hi' as [_ <-]. simpl in *.
      by destruct (Hfresh _ _ Hi Ht).
    + apply list_lookup_singleton_Some in Hi as [_ <-]. simpl in *.
      by destruct (Hfresh _ _ Hi' Ht').
    + apply list_lookup_singleton_Some in Hi as [Hi _].
      apply list_lookup_singleton_Some in Hi' as [Hi' _]. lia.
  - intros p q Hpq. rewrite !lookup_insert.
    case_decide as Hp; case_decide as Hq; try congruence.
    + subst p. intros _ [v Hv]. pose proof (inv_key _ I _ _ Hv) as Hk.
      pose proof (Hfree _ _ Hv) as Hc. unfold clashes in Hc.
      rewrite Hk in Hc. tauto.
    + subst q. intros [v Hv] _. pose proof (inv_key _ I _ _ Hv) as Hk.
      pose proof (Hfree _ _ Hv) as Hc. unfold clashes in Hc.
      rewrite Hk in Hc. tauto.
    + by apply (inv_disjoint _ I).
Qed.

Lemma invariant_return (s : system) (i : nat) (t : task) (w : world) :
  invariant s -> tasks s !! i = Some t -> state t = Live ->
  invariant {| Data := (startSync w (Data s) (job t)).2;
               tasks := <[i := {| job := job t; state := Gone |}]> (tasks s) |}.
Proof.
  intros I Hi Ht. pose proof (lookup_lt_Some _ _ _ Hi) as Hlt.
  split; simpl.
  - intros p v [_ H]%lookup_delete_Some. by apply (inv_key _ I).
  - intros p [v [Hp H]%lookup_delete_Some].
    destruct (inv_live _ I p) as (i' & t' & Hi' & Ht' & Hpt'); [by eexists|].
    exists i', t'. split; [|done].
    rewrite list_lookup_insert_ne; [done|]. intros <-. congruence.
  - intros i' t' Hi' Ht'.
    destruct (decide (i = i')) as [<-|Hne].
    { rewrite list_lookup_insert_eq in Hi' by done.
      injection Hi' as <-. done. }
    rewrite list_lookup_insert_ne in Hi' by done.
    destruct (inv_registered _ I _ _ Hi' Ht') as [v Hv].
    exists v. apply lookup_delete_Some. split; [|done].
    intros Heq. apply Hne. by apply (inv_unique _ I i i' t t').
  - intros i1 i2 t1 t2 H1 H2 Hs1 Hs2 Heq.
    destruct (decide (i = i1)) as [<-|Hne1].
    { rewrite list_lookup_insert_eq in H1 by done.
      injection H1 as <-. done. }
    destruct (decide (i = i2)) as [<-|Hne2].
    { rewrite list_lookup_insert_eq in H2 by done.
      injection H2 as <-. done. }
    rewrite list_lookup_insert_ne in H1, H2 by done.
    by apply (inv_unique _ I i1 i2 t1 t2).
  - intros p q Hpq [v [_ Hp]%lookup_delete_Some] [v' [_ Hq]%lookup_delete_Some].
    apply (inv_disjoint _ I); [done|by eexists..].
Qed.

Lemma invariant_update (s : system) (p : string) (j j' : Sync.t) :
  invariant s -> Data s !! p = Some j -> Sync.Path j' = Sync.Path j ->
  invariant {| Data := <[p := j']> (Data s); tasks := tasks s |}.
Proof.
  intros I Hp Hpath.
  assert (Hsome : forall q, is_Some (<[p := j']> (Data s) !! q) <->
                            is_Some (Data s !! q)).
  { intros q. rewrite lookup_insert_is_Some. split.
    - intros [<-|[_ H]]; [by eexists|done].
    - intros H. destruct (decide (p = q)); [by left|by right]. }
  split; simpl.
  - intros q v. rewrite lookup_insert. case_decide; [|by apply (inv_key _ I)].
    intros [= <-]. subst q. rewrite Hpath. by apply (inv_key _ I).
  - intros q Hq%Hsome. by apply (inv_live _ I).
  - intros i t Hi Ht. apply Hsome. by apply (inv_registered _ I i).
  - apply (inv_unique _ I).
  - intros q q' Hne Hq%Hsome Hq'%Hsome. by apply (inv_disjoint _ I).
Qed.

Lemma cancel_Path (j : Sync.t) : Sync.Path (Sync.cancel j) = Sync.Path j.
Proof. done. Qed.

Lemma invariant_step (s s' : system) :
  invariant s -> step s s' -> invariant s'.
Proof.
  intros I Hstep. destruct Hstep as [s path|s i t w Hi Ht|s i t j a F text Hi Ht Hj|s path].
  - by apply invariant_sync.
  - by apply invariant_return.
  - apply (invariant_update s _ j); [done..|apply progressToken_Path].
  - destruct (Data s !! path) as [j|] eqn:E.
    + replace (alter Sync.cancel path (Data s))
        with (<[path := Sync.cancel j]> (Data s)).
      * by apply (invariant_update s _ j).
      * apply map_eq. intros q. rewrite lookup_insert, lookup_alter.
        case_decide; [subst; by rewrite E|done].
    + replace (alter Sync.cancel path (Data s)) with (Data s).
      * by destruct s, I.
      * apply map_eq. intros q. rewrite lookup_alter.
        case_decide; [subst; by rewrite E|done].
Qed.

Lemma reachable_invariant (s : system) : reachable s -> invariant s.
Proof.
  induction 1 as [|s s' _ IH Hstep]; [apply invariant_boot|].
  by apply (invariant_step s).
Qed.

(** ** The registry claims *)

(** C1. The locked scan-then-insert of [sync] refuses, leaving the registry
    as it was, whenever some registered job's path equals the requested
    path, has it as a prefix or is a prefix of it; otherwise it inserts the
    new job and accepts.  Hence in every reachable state of the service no
    registered path is a prefix of another registered path. *)
Theorem registry_no_overlap :
  (forall (Data : gmap string Sync.t) path,
      (exists k v, Data !! k = Some v /\ clashes path v) ->
      sync Data path = (false, Data, None))
  /\ (forall (Data : gmap string Sync.t) path,
      (forall k v, Data !! k = Some v -> ~ clashes path v) ->
      sync Data path
      = (true, <[path := newSync path]> Data, Some (newSync path)))
  /\ (forall s, reachable s ->
      forall p q, p <> q ->
        is_Some (Data s !! p) -> is_Some (Data s !! q) ->
        ~ isPrefixOf p q /\ ~ isPrefixOf q p).
Proof.
  split; [|split].
  - apply sync_refuses.
  - apply sync_inserts.
  - intros s Hs. apply inv_disjoint. by apply reachable_invariant.
Qed.

(** C9. The scan compares bytes, not path elements: with a job registered
    for ["/a"], [sync] refuses ["/ab"] and [remove] refuses to delete
    ["/ab"], although neither directory lies inside the other. *)
Theorem sibling_directories_refused (Data : gmap string Sync.t)
    (v : Sync.t) (removeAll : fsError) :
  Data !! "/a" = Some v -> Sync.Path v = "/a" ->
  sync Data "/ab" = (false, Data, None)
  /\ remove removeAll Data "/ab" = (false, None, [])
  /\ ~ nestedIn "/ab" "/a" /\ ~ nestedIn "/a" "/ab".
Proof.
  intros Hv Hpath.
  assert (Hscan : scan "/ab" (map_to_list Data) = true).
  { apply scan_registry. exists "/a", v. split; [done|].
    right. right. rewrite Hpath. by exists "b". }
  unfold sync, remove. rewrite Hscan. repeat split.
  - intros [k Hk]. vm_compute in Hk. discriminate.
  - intros [k Hk]. vm_compute in Hk. discriminate.
Qed.

Lemma sibling_directories_refused_witness :
  sync (<["/a" := newSync "/a"]> ∅) "/ab"
  = (false, <["/a" := newSync "/a"]> ∅, None)
  /\ remove None (<["/a" := newSync "/a"]> ∅) "/ab" = (false, None, []).
Proof.
  pose proof (sibling_directories_refused
                (<["/a" := newSync "/a"]> ∅) (newSync "/a") None
                (lookup_insert_eq _ _ _) eq_refl) as (H1 & H2 & _).
  exact (conj H1 H2).
Defined.

(** ** The supervisor claims *)

(** C6. Every return of [startSync] runs the deferred delete, so the
    job's entry is gone when its task has ended, whatever the outcome of
    creating the directory, of the pipes and of the process; when the
    directory cannot be created no process is spawned.  In a reachable
    state of the service a registered path always belongs to a task that
    has not returned, and a started task whose path is not registered has
    returned. *)
Theorem job_removed_on_termination :
  (forall w (Data : gmap string Sync.t) j,
      (startSync w Data j).2 !! Sync.Path j = None
      /\ forall p, p <> Sync.Path j ->
           (startSync w Data j).2 !! p = Data !! p)
  /\ (forall w (Data : gmap string Sync.t) j,
      is_Some (mkdirAll w) -> Run ∉ (startSync w Data j).1)
  /\ (forall s s', reachable s -> step s s' ->
      forall i t, tasks s !! i = Some t -> state t = Live ->
        (exists t', tasks s' !! i = Some t' /\ state t' = Gone) ->
        Data s' !! Sync.Path (job t) = None)
  /\ (forall s, reachable s ->
      forall i t, tasks s !! i = Some t ->
        Data s !! Sync.Path (job t) = None -> state t = Gone)
  /\ (forall s, reachable s ->
      forall p, is_Some (Data s !! p) ->
        exists i t, tasks s !! i = Some t /\ state t = Live
                    /\ Sync.Path (job t) = p).
Proof.
  split; [|split; [|split; [|split]]].
  - intros w D j. unfold startSync. simpl. split.
    + apply lookup_delete_eq.
    + intros p Hp. by apply lookup_delete_ne.
  - intros w D j [e He]. unfold startSync, startSync_body. simpl.
    rewrite He. intros H. repeat (apply elem_of_cons in H as [H|H]; [done|]).
    by apply elem_of_nil in H.
  - intros s s' Hs Hstep i t Hi Ht (t' & Hi' & Ht').
    destruct Hstep as [s path|s k u w Hk Hu|s k u j a F text Hk Hu Hj|s path];
      simpl in *.
    + apply lookup_app_Some in Hi' as [Hi'|[Hlen _]];
        [congruence|apply lookup_lt_Some in Hi; lia].
    + destruct (decide (k = i)) as [->|Hne].
      * assert (u = t) as -> by congruence. apply lookup_delete_eq.
      * rewrite list_lookup_insert_ne in Hi' by done. congruence.
    + congruence.
    + congruence.
  - intros s Hs i t Hi Hnone.
    destruct (state t) eqn:Ht; [|done].
    destruct (inv_registered _ (reachable_invariant _ Hs) _ _ Hi Ht) as [v Hv].
    congruence.
  - intros s Hs. apply inv_live. by apply reachable_invariant.
Qed.

(** The watcher reads [cmd.Process.Pid] before anything else: when the
    process was never started the pointer is nil and the read panics. *)
Lemma watcher_unstarted_process_panics (signalErr : option string) :
  exists msg, watcher None signalErr = Panics msg.
Proof. by eexists. Qed.

(** The watcher with a process handle.  When the pid is not -1 it sends
    SIGTERM, logs a failure of that request and goes on, waits five seconds
    whatever the request answered, and then cancels the process context.
    When the pid is -1 it does none of the three. *)
Theorem watcher_protocol (p : Process) (signalErr : option string) :
  (Pid p <> (-1)%Z ->
   exists logged,
     watcher (Some p) signalErr
     = Returns ([SignalTerm] ++ logged ++ [Sleep 5; CancelProcess])
     /\ logged = match signalErr with
                 | Some _ => [LogError "terminate err"]
                 | None => []
                 end)
  /\ (Pid p = (-1)%Z -> watcher (Some p) signalErr = Returns []).
Proof.
  unfold watcher. split.
  - intros Hpid. apply Z.eqb_neq in Hpid. rewrite Hpid. simpl. by eexists.
  - intros ->. done.
Qed.

(** With a handle whose pid is -1 the signal is followed by no grace
    period and no cancellation: the watcher does nothing. *)
Lemma watcher_pid_minus_one_no_grace_period :
  watcher (Some {| Pid := -1 |}) None = Returns []
  /\ ~ (exists before after,
          watcher (Some {| Pid := -1 |}) None
          = Returns (before ++ [Sleep 5; CancelProcess] ++ after)).
Proof.
  split; [done|].
  intros (before & after & Heq). vm_compute in Heq. injection Heq as Heq.
  by destruct before.
Qed.

(** C7. The code faults where the claim promises a no-op.  [startSync]
    launches the watcher before it sets up the pipes and runs the process,
    so when a pipe cannot be set up the watcher is waiting and the process
    is never started: [cmd.Process] stays nil.  When the cancellation
    signal then fires, the watcher's read of [cmd.Process.Pid] panics; it
    sends no termination request, waits no grace period and cancels
    nothing.  With a started process the watcher does what the claim says:
    SIGTERM, five seconds, cancel. *)
Theorem watcher_faults_without_process :
  GoWatcher ∈ startSync_body pipeFailure
  /\ (Run ∉ startSync_body pipeFailure)
  /\ watcher None None
     = Panics "invalid memory address or nil pointer dereference"
  /\ ~ (exists events, watcher None None = Returns events)
  /\ watcher (Some {| Pid := 4242 |}) None
     = Returns [SignalTerm; Sleep 5; CancelProcess].
Proof.
  split; [|split; [|split; [|split]]].
  - right. left.
  - intros H. vm_compute in H.
    repeat (apply elem_of_cons in H as [H|H]; [done|]).
    by apply elem_of_nil in H.
  - done.
  - intros [events H]. done.
  - done.
Qed.

(** ** The progress reader claims *)

Lemma HasSuffix_false (s suffix : string) :
  strings.HasSuffix s suffix = false <-> ~ endsWith s suffix.
Proof. rewrite <- not_true_iff_false. by rewrite HasSuffix_spec. Qed.

Lemma Contains_false (s substr : string) :
  strings.Contains s substr = false <-> ~ hasSubstring s substr.
Proof. rewrite <- not_true_iff_false. by rewrite Contains_spec. Qed.

(** C3. One rule applies to a token, in this order: a token [body%] parses
    [body] as an integer into [Progress]; otherwise a token [body/s] parses
    [body] as a human-readable size into [Speed]; otherwise a token with a
    colon becomes [TimeLeft] as it is; otherwise the token without its
    commas is parsed as an integer into [Downloaded].  The rule that applies
    writes its one field and leaves every other field of the job as it was;
    when the parse fails the job is left exactly as it was, and in every
    case the reader goes on with the next token. *)
Theorem progress_token_classification (a : arch) (F : string -> option Z)
    (text : string) (j : Sync.t) (rest : list string) :
  let j' := (progressToken a F text j).1 in
  (forall body, text = (body ++ "%")%string ->
     j' = match strconv.Atoi a body with
          | Some v =>
              {| Sync.Path := Sync.Path j;
                 Sync.Progress := uint a v;
                 Sync.Speed := Sync.Speed j;
                 Sync.Downloaded := Sync.Downloaded j;
                 Sync.TimeLeft := Sync.TimeLeft j;
                 Sync.Cancelled := Sync.Cancelled j |}
          | None => j
          end)
  /\ (forall body, ~ endsWith text "%" -> text = (body ++ "/s")%string ->
     j' = match F body with
          | Some v =>
              {| Sync.Path := Sync.Path j;
                 Sync.Progress := Sync.Progress j;
                 Sync.Speed := uint a v;
                 Sync.Downloaded := Sync.Downloaded j;
                 Sync.TimeLeft := Sync.TimeLeft j;
                 Sync.Cancelled := Sync.Cancelled j |}
          | None => j
          end)
  /\ (~ endsWith text "%" -> ~ endsWith text "/s" -> hasSubstring text ":" ->
     j' = {| Sync.Path := Sync.Path j;
             Sync.Progress := Sync.Progress j;
             Sync.Speed := Sync.Speed j;
             Sync.Downloaded := Sync.Downloaded j;
             Sync.TimeLeft := text;
             Sync.Cancelled := Sync.Cancelled j |})
  /\ (~ endsWith text "%" -> ~ endsWith text "/s" -> ~ hasSubstring text ":" ->
     j' = match strconv.Atoi a (withoutByte ","%char text) with
          | Some v =>
              {| Sync.Path := Sync.Path j;
                 Sync.Progress := Sync.Progress j;
                 Sync.Speed := Sync.Speed j;
                 Sync.Downloaded := uint a v;
                 Sync.TimeLeft := Sync.TimeLeft j;
                 Sync.Cancelled := Sync.Cancelled j |}
          | None => j
          end)
  /\ (progressReader a F (text :: rest) j).1 = (progressReader a F rest j').1.
Proof.
  simpl. repeat split.
  - intros body ->. unfold progressToken.
    rewrite HasSuffix_app, TrimSuffix_app. by destruct (strconv.Atoi a body).
  - intros body Hpct%HasSuffix_false ->. unfold progressToken.
    rewrite Hpct, HasSuffix_app, TrimSuffix_app. by destruct (F body).
  - intros Hpct%HasSuffix_false Hs%HasSuffix_false Hc%Contains_spec.
    unfold progressToken. by rewrite Hpct, Hs, Hc.
  - intros Hpct%HasSuffix_false Hs%HasSuffix_false Hc%Contains_false.
    unfold progressToken. rewrite Hpct, Hs, Hc, ReplaceAll_comma.
    by destruct (strconv.Atoi a _).
  - destruct (progressToken a F text j) as [j1 log1]. simpl.
    by destruct (progressReader a F rest j1).
Qed.

Lemma Atoi_range (a : arch) (s : string) (v : Z) :
  strconv.Atoi a s = Some v -> (minInt a <= v <= maxInt a)%Z.
Proof.
  unfold strconv.Atoi.
  repeat (case_match; try done); intros [= <-]; lia.
Qed.

Lemma uint_negative (a : arch) (v : Z) :
  (minInt a <= v < 0)%Z -> uint a v = (2 ^ bits a + v)%Z.
Proof.
  intros [Hlo Hhi]. unfold uint, minInt in *.
  assert (2 ^ bits a = 2 * 2 ^ (bits a - 1))%Z as Hpow.
  { rewrite <- Z.pow_succ_r by (destruct a; simpl; lia). f_equal. lia. }
  assert (0 < 2 ^ (bits a - 1))%Z by (apply Z.pow_pos_nonneg; destruct a; simpl; lia).
  symmetry. apply Z.mod_unique_pos with (q := (-1)%Z); lia.
Qed.

(** C10. A token [body%] whose [body] parses as a negative integer [v] is
    no parse failure: nothing is logged and [Progress] becomes the unsigned
    word [2^w + v], so ["-5%"] stores [2^w - 5]. *)
Theorem negative_percent_wraps (a : arch) (F : string -> option Z)
    (body : string) (v : Z) (j : Sync.t) :
  strconv.Atoi a body = Some v -> (v < 0)%Z ->
  progressToken a F (body ++ "%") j
  = (Sync.setProgress (2 ^ bits a + v) j, []).
Proof.
  intros Hparse Hneg. unfold progressToken.
  rewrite HasSuffix_app, TrimSuffix_app, Hparse.
  rewrite uint_negative; [done|].
  apply Atoi_range in Hparse. lia.
Qed.

Lemma negative_percent_wraps_witness :
  Sync.Progress
    (progressToken Arch64 (fun _ => None) "-5%" (newSync "/a")).1
  = (2 ^ 64 - 5)%Z.
Proof.
  pose proof (negative_percent_wraps Arch64 (fun _ => None) "-5" (-5)
                (newSync "/a") eq_refl eq_refl) as H.
  change ("-5" ++ "%")%string with "-5%" in H.
  rewrite H. reflexivity.
Defined.

(** ** The listing of jobs: [ListSyncs] *)

Lemma less_false (x y : SyncResult.t) :
  less y x = false ->
  SyncResult.Path x = SyncResult.Path y \/ less x y = true.
Proof.
  unfold less, String.ltb.
  rewrite (String.compare_antisym (SyncResult.Path y) (SyncResult.Path x)).
  destruct (String.compare (SyncResult.Path x) (SyncResult.Path y)) eqn:E;
    simpl; try done.
  - left. by apply String.compare_eq_iff.
  - by right.
Qed.

Lemma less_asym (x y : SyncResult.t) :
  less y x = false -> less x y = false ->
  SyncResult.Path x = SyncResult.Path y.
Proof.
  intros [H|H]%less_false; [done|congruence].
Qed.

Section views.

Variable Data : gmap string Sync.t.
Hypothesis keyed : forall p v, Data !! p = Some v -> Sync.Path v = p.

Lemma views_elem (r : SyncResult.t) :
  r ∈ jobViews Data <-> exists j, Data !! SyncResult.Path r = Some j /\ r = view j.
Proof.
  unfold jobViews. rewrite list_elem_of_fmap. split.
  - intros ([k v] & -> & H%elem_of_map_to_list). simpl.
    exists v. by rewrite (keyed _ _ H).
  - intros (j & H & ->). exists (SyncResult.Path (view j), j).
    split; [done|]. by apply elem_of_map_to_list.
Qed.

Lemma views_paths : SyncResult.Path <$> jobViews Data = (map_to_list Data).*1.
Proof.
  unfold jobViews. rewrite <- list_fmap_compose. apply list_fmap_ext.
  intros i [k v] H. simpl. apply keyed.
  apply elem_of_map_to_list. by eapply list_elem_of_lookup_2.
Qed.

Lemma views_NoDup : NoDup (SyncResult.Path <$> jobViews Data).
Proof. rewrite views_paths. apply NoDup_fst_map_to_list. Qed.

Lemma views_same_path (x y : SyncResult.t) :
  x ∈ jobViews Data -> y ∈ jobViews Data -> SyncResult.Path x = SyncResult.Path y -> x = y.
Proof.
  intros (j & Hj & ->)%views_elem (j' & Hj' & ->)%views_elem Heq.
  rewrite Heq in Hj. congruence.
Qed.

Lemma sorted_strictly (l : list SyncResult.t) :
  NoDup (SyncResult.Path <$> l) ->
  StronglySorted (fun x y => less y x = false) l ->
  StronglySorted (fun x y => less x y = true) l.
Proof.
  induction l as [|x l IH]; intros Hnd Hs; [constructor|].
  rewrite fmap_cons in Hnd. apply NoDup_cons in Hnd as [Hx Hnd].
  apply StronglySorted_cons in Hs as [Hall Hs].
  constructor; [by apply IH|].
  rewrite Forall_forall in Hall |- *. intros y Hy.
  destruct (less_false _ _ (Hall y Hy)) as [Heq|]; [|done].
  destruct Hx. rewrite Heq. by apply list_elem_of_fmap_2.
Qed.

Lemma ListSyncs_spec rangeSyncs sortSlice :
  (forall m, rangeSyncs m ≡ₚ map_to_list m) ->
  sortsBy less sortSlice ->
  ListSyncs rangeSyncs sortSlice Data ≡ₚ jobViews Data
  /\ StronglySorted (fun x y => less x y = true)
       (ListSyncs rangeSyncs sortSlice Data).
Proof.
  intros Hrange Hsort. unfold ListSyncs.
  destruct (Hsort (map (fun kv => view kv.2) (rangeSyncs Data)))
    as [Hperm Hsorted].
  assert (Hviews : sortSlice (map (fun kv => view kv.2) (rangeSyncs Data))
                   ≡ₚ jobViews Data).
  { rewrite Hperm. unfold jobViews. by rewrite Hrange. }
  split; [done|].
  apply sorted_strictly; [|done].
  rewrite Hviews. apply views_NoDup.
Qed.

Lemma ListSyncs_deterministic range1 sort1 range2 sort2 :
  (forall m, range1 m ≡ₚ map_to_list m) -> sortsBy less sort1 ->
  (forall m, range2 m ≡ₚ map_to_list m) -> sortsBy less sort2 ->
  ListSyncs range1 sort1 Data = ListSyncs range2 sort2 Data.
Proof.
  intros Hr1 Hs1 Hr2 Hs2.
  assert (Hp : forall rg st, (forall m, rg m ≡ₚ map_to_list m) ->
             sortsBy less st -> ListSyncs rg st Data ≡ₚ jobViews Data).
  { intros rg st Hr Hs. by apply ListSyncs_spec. }
  apply (StronglySorted_unique_strong (fun x y => less y x = false)).
  - intros x y Hx Hy Hxy Hyx.
    rewrite (Hp _ _ Hr1 Hs1) in Hx. rewrite (Hp _ _ Hr2 Hs2) in Hy.
    apply views_same_path; [done..|]. by apply less_asym.
  - apply Hs1.
  - apply Hs2.
  - by rewrite (Hp _ _ Hr1 Hs1), (Hp _ _ Hr2 Hs2).
Qed.

End views.

(** C8. In every reachable state the list returned by [ListSyncs] holds
    one view for each registered job and nothing else, each with the job's
    path, progress, speed, downloaded bytes and time left, in strictly
    descending byte order of the paths; it is the same list whatever order
    the registry is ranged over and whatever [sort.Slice] does with equal
    elements. *)
Theorem snapshot_sorted_descending
    (rangeSyncs : gmap string Sync.t -> list (string * Sync.t))
    (sortSlice : list SyncResult.t -> list SyncResult.t) (s : system) :
  (forall m, rangeSyncs m ≡ₚ map_to_list m) ->
  sortsBy less sortSlice ->
  reachable s ->
  let out := ListSyncs rangeSyncs sortSlice (Data s) in
  (forall r, r ∈ out <->
     exists j, Data s !! SyncResult.Path r = Some j
               /\ r = SyncResult.mk (Sync.Path j) (Sync.Progress j)
                        (Sync.Speed j) (Sync.Downloaded j) (Sync.TimeLeft j))
  /\ length out = size (Data s)
  /\ NoDup (SyncResult.Path <$> out)
  /\ StronglySorted
       (fun x y => String.ltb (SyncResult.Path y) (SyncResult.Path x) = true)
       out
  /\ (forall range' sort',
        (forall m, range' m ≡ₚ map_to_list m) -> sortsBy less sort' ->
        ListSyncs range' sort' (Data s) = out).
Proof.
  intros Hrange Hsort Hs out.
  pose proof (inv_key _ (reachable_invariant _ Hs)) as keyed.
  destruct (ListSyncs_spec (Data s) keyed _ _ Hrange Hsort) as [Hperm Hsorted].
  fold out in Hperm, Hsorted.
  repeat split.
  - intros Hr. rewrite Hperm in Hr. by apply (views_elem (Data s) keyed).
  - intros Hr. rewrite Hperm. by apply (views_elem (Data s) keyed).
  - rewrite Hperm. unfold jobViews. rewrite length_map. apply length_map_to_list.
  - rewrite Hperm. by apply views_NoDup.
  - done.
  - intros range' sort' Hr' Hs'. by apply ListSyncs_deterministic.
Qed.

(** ** Marking a tree: [setNotSynced] *)

Lemma setSynced_same (d : Dir.t) : Dir.setSynced (Dir.Synced d) d = d.
Proof. by destruct d. Qed.

Lemma marks_refl (h : list Dir.t) : marks h h (fun _ => False).
Proof.
  split; [done|]. intros i d Hi. exists (Dir.Synced d).
  rewrite setSynced_same. split; [done|tauto].
Qed.

Lemma marks_iff (h h' : list Dir.t) (S S' : nat -> Prop) :
  (forall i, S i <-> S' i) -> marks h h' S -> marks h h' S'.
Proof.
  intros HS [Hlen H]. split; [done|]. intros i d Hi.
  destruct (H i d Hi) as (b & Hb & Hiff). exists b. split; [done|].
  by rewrite <- HS.
Qed.

Lemma marks_trans (h1 h2 h3 : list Dir.t) (S1 S2 : nat -> Prop) :
  marks h1 h2 S1 -> marks h2 h3 S2 -> marks h1 h3 (fun i => S1 i \/ S2 i).
Proof.
  intros [Hlen1 H1] [Hlen2 H2]. split; [congruence|]. intros i d Hi.
  destruct (H1 i d Hi) as (b1 & Hb1 & Hiff1).
  destruct (H2 i _ Hb1) as (b2 & Hb2 & Hiff2).
  exists b2. split; [by destruct d|]. simpl in Hiff2. rewrite Hiff2, Hiff1. tauto.
Qed.

Lemma marks_parent (h h' : list Dir.t) (S : nat -> Prop) (i : nat) :
  marks h h' S -> Dir.Parent <$> h' !! i = Dir.Parent <$> h !! i.
Proof.
  intros [Hlen H]. destruct (h !! i) as [d|] eqn:Hi.
  - destruct (H i d Hi) as (b & -> & _). done.
  - apply lookup_ge_None in Hi. rewrite <- Hlen in Hi.
    apply lookup_ge_None in Hi. by rewrite Hi.
Qed.

Lemma onChain_parent (h h' : list Dir.t) (b a : nat) :
  (forall i, Dir.Parent <$> h' !! i = Dir.Parent <$> h !! i) ->
  onChain h b a -> onChain h' b a.
Proof.
  intros Hpar. induction 1 as [|a d pa Ha Hd _ IH]; [constructor|].
  specialize (Hpar a). rewrite Ha in Hpar. simpl in Hpar.
  destruct (h' !! a) as [d'|] eqn:Ha'; [|done].
  injection Hpar as Hpar. apply (onChain_up _ _ a d' pa); [done|congruence|done].
Qed.

Lemma marks_onChain (h h' : list Dir.t) (S : nat -> Prop) (b a : nat) :
  marks h h' S -> onChain h' b a <-> onChain h b a.
Proof.
  intros Hm. split; apply onChain_parent; intros i;
    [symmetry|]; by apply (marks_parent h h' S).
Qed.

Lemma marks_parentsOlder (h h' : list Dir.t) (S : nat -> Prop) :
  marks h h' S -> parentsOlder h -> parentsOlder h'.
Proof.
  intros Hm Hw i d' a Hi Hp.
  pose proof (marks_parent _ _ _ i Hm) as Hpar. rewrite Hi in Hpar.
  destruct (h !! i) as [d|] eqn:E; [|done]. injection Hpar as Hpar.
  apply (Hw i d a); [done|congruence].
Qed.

Lemma setNotSynced_marks (fuel : nat) (h : list Dir.t) (item : nat) :
  parentsOlder h -> item < length h -> item < fuel ->
  exists h', setNotSynced fuel h item = Some h'
             /\ marks h h' (fun b => onChain h b item).
Proof.
  revert h item. induction fuel as [|fuel IH]; intros h item Hw Hlen Hfuel;
    [lia|].
  destruct (lookup_lt_is_Some_2 _ _ Hlen) as [d Hd]. simpl. rewrite Hd.
  assert (Hm1 : marks h (<[item := Dir.setSynced false d]> h)
                  (fun b => b = item)).
  { split; [apply length_insert|]. intros i di Hi.
    destruct (decide (i = item)) as [->|Hne].
    - exists false. rewrite list_lookup_insert_eq by done.
      split; [congruence|]. tauto.
    - exists (Dir.Synced di). rewrite list_lookup_insert_ne by done.
      rewrite setSynced_same. split; [done|]. tauto. }
  destruct (Dir.Parent d) as [pa|] eqn:Hpa.
  - pose proof (Hw _ _ _ Hd Hpa) as Hlt.
    destruct (IH (<[item := Dir.setSynced false d]> h) pa) as (h' & Hrun & Hm2).
    + by apply (marks_parentsOlder h _ _ Hm1).
    + rewrite length_insert. lia.
    + lia.
    + exists h'. split; [done|].
      eapply marks_iff; [|exact (marks_trans _ _ _ _ _ Hm1 Hm2)].
      intros b. simpl. rewrite (marks_onChain _ _ _ b pa Hm1). split.
      * intros [->|Hc]; [constructor|by apply (onChain_up _ _ item d pa)].
      * inversion 1 as [|a d' pa' Ha Hd' Hc]; subst; [by left|].
        right. congruence.
  - eexists. split; [done|].
    eapply marks_iff; [|exact Hm1].
    intros b. split.
    + intros ->. constructor.
    + inversion 1 as [|a d' pa' Ha Hd' Hc]; subst; [done|congruence].
Qed.

Lemma markNotSynced_marks (fuel : nat) (localPathMap : gmap string nat)
    (entries : list (string * nat)) (h : list Dir.t) :
  parentsOlder h -> length h <= fuel ->
  (forall p a, (p, a) ∈ entries -> a < length h) ->
  exists h', markNotSynced fuel localPathMap entries h = Some h'
             /\ marks h h' (fun b => exists p a,
                   (p, a) ∈ entries /\ localPathMap !! p = None
                   /\ onChain h b a).
Proof.
  revert h. induction entries as [|[p a] rest IH]; intros h Hw Hfuel Hvalid.
  - exists h. split; [done|]. eapply marks_iff; [|apply marks_refl].
    intros b. split; [done|]. intros (p & a & H & _). by apply elem_of_nil in H.
  - simpl. destruct (localPathMap !! p) as [x|] eqn:Hp.
    + destruct (IH h Hw Hfuel) as (h' & Hrun & Hm).
      { intros q b Hq. apply (Hvalid q b). by right. }
      exists h'. split; [done|]. eapply marks_iff; [|exact Hm].
      intros b. split.
      * intros (q & c & Hq & Hn & Hc). exists q, c. split; [by right|done].
      * intros (q & c & Hq & Hn & Hc).
        apply elem_of_cons in Hq as [[= -> ->]|Hq]; [congruence|].
        by exists q, c.
    + destruct (setNotSynced_marks fuel h a Hw) as (h1 & Hrun1 & Hm1).
      { apply (Hvalid p a). by left. }
      { pose proof (Hvalid p a ltac:(by left)). lia. }
      rewrite Hrun1.
      destruct (IH h1) as (h' & Hrun & Hm).
      { by apply (marks_parentsOlder h _ _ Hm1). }
      { destruct Hm1 as [-> _]. done. }
      { intros q b Hq. destruct Hm1 as [-> _]. apply (Hvalid q b). by right. }
      exists h'. split; [done|].
      eapply marks_iff; [|exact (marks_trans _ _ _ _ _ Hm1 Hm)].
      intros b. simpl. split.
      * intros [Hc|(q & c & Hq & Hn & Hc)].
        -- exists p, a. split; [by left|done].
        -- exists q, c. split; [by right|]. split; [done|].
           by apply (marks_onChain _ _ _ b c Hm1).
      * intros (q & c & Hq & Hn & Hc).
        apply elem_of_cons in Hq as [[= -> ->]|Hq]; [by left|].
        right. exists q, c. split; [done|]. split; [done|].
        by apply (marks_onChain _ _ _ b c Hm1).
Qed.

(** ** Building a tree *)

Lemma link_length parent name child (h : list Dir.t) :
  length (link parent name child h) = length h.
Proof. destruct parent; simpl; [apply length_alter|done]. Qed.

Lemma link_lookup parent name child (h : list Dir.t) (i : nat) :
  exists f, link parent name child h !! i = f <$> h !! i
            /\ forall d, Dir.Path (f d) = Dir.Path d
                         /\ Dir.Parent (f d) = Dir.Parent d
                         /\ Dir.Synced (f d) = Dir.Synced d.
Proof.
  destruct parent as [p|]; simpl.
  - destruct (decide (p = i)) as [->|Hne].
    + exists (Dir.addChild name child). by rewrite list_lookup_alter_eq.
    + exists id. rewrite list_lookup_alter_ne by done.
      by rewrite option_fmap_id.
  - exists id. by rewrite option_fmap_id.
Qed.

Lemma built_empty : built emptyTree.
Proof.
  split; simpl.
  - intros p a H. by rewrite lookup_empty in H.
  - intros i d a H. by rewrite lookup_nil in H.
Qed.

Lemma built_addItem synced path name (t : tree) :
  built t -> built (addItem synced path name t).
Proof.
  intros [Hvalid Holder]. split; simpl.
  - intros p a. rewrite length_app, link_length, lookup_insert. simpl.
    case_decide as Hq; [intros [= <-]; lia|].
    intros Ha%Hvalid. lia.
  - intros i d a Hi Hp.
    apply lookup_app_Some in Hi as [Hi|[Hlen Hi]].
    + destruct (link_lookup (pathMap t !! filepath.Dir path) name
                  (length (cells t)) (cells t) i) as (f & Hf & Hsame).
      rewrite Hf in Hi. destruct (cells t !! i) as [d0|] eqn:E; [|done].
      injection Hi as <-. destruct (Hsame d0) as (_ & Hpar & _).
      apply (Holder i d0 a); [done|congruence].
    + apply list_lookup_singleton_Some in Hi as [Hi <-]. simpl in Hp.
      rewrite link_length in Hlen, Hi. apply Hvalid in Hp. lia.
Qed.

Lemma addItem_dom synced path name (t : tree) (q : string) :
  is_Some (pathMap (addItem synced path name t) !! q) <->
  q = path \/ is_Some (pathMap t !! q).
Proof.
  simpl. rewrite lookup_insert_is_Some. split.
  - intros [<-|[_ H]]; [by left|by right].
  - intros [->|H]; [by left|].
    destruct (decide (path = q)); [by left|by right].
Qed.

Lemma scanLines_snoc (l : list string) (p : string) :
  scanLines (l ++ [p]) = addItem true p (filepath.Base p) (scanLines l).
Proof. unfold scanLines. by rewrite foldl_snoc. Qed.

Lemma scanLines_built (l : list string) : built (scanLines l).
Proof.
  induction l as [|p l IH] using rev_ind; [apply built_empty|].
  rewrite scanLines_snoc. by apply built_addItem.
Qed.

Lemma scanLines_dom (l : list string) (q : string) :
  is_Some (pathMap (scanLines l) !! q) <-> q ∈ l.
Proof.
  induction l as [|p l IH] using rev_ind.
  - simpl. rewrite lookup_empty. split; [by intros [? ?]|].
    intros H. by apply elem_of_nil in H.
  - rewrite scanLines_snoc, addItem_dom, IH, elem_of_app, list_elem_of_singleton.
    tauto.
Qed.

Lemma scanLines_listed (l : list string) :
  NoDup l -> listed l (scanLines l).
Proof.
  induction l as [|p l IH] using rev_ind; intros Hnd.
  - repeat split; simpl; done.
  - apply NoDup_app in Hnd as (Hnd & Hfresh & _).
    destruct (IH Hnd) as (Hlen & Hmap & Hcells).
    assert (Hp : p ∉ l).
    { intros Hin. apply (Hfresh p Hin). by left. }
    rewrite scanLines_snoc. repeat split; simpl.
    + rewrite length_app, link_length, length_app. simpl. lia.
    + rewrite lookup_insert. case_decide as Hq.
      * intros [= <-]. subst. rewrite Hlen. apply list_lookup_middle. done.
      * intros Ha%Hmap. by apply lookup_app_l_Some.
    + intros Ha. apply lookup_app_Some in Ha as [Ha|[Hge Ha]].
      * rewrite lookup_insert_ne; [by apply Hmap|].
        intros <-. apply Hp. by eapply list_elem_of_lookup_2.
      * apply list_lookup_singleton_Some in Ha as [Ha <-].
        replace a with (length (cells (scanLines l))) by lia.
        apply lookup_insert_eq.
    + intros i q Hi. apply lookup_app_Some in Hi as [Hi|[Hge Hi]].
      * destruct (Hcells i q Hi) as (d & Hd & Hpath & Hsync & Hpar).
        destruct (link_lookup (pathMap (scanLines l) !! filepath.Dir p)
                    (filepath.Base p) (length (cells (scanLines l)))
                    (cells (scanLines l)) i) as (f & Hf & Hsame).
        destruct (Hsame d) as (Hs1 & Hs2 & Hs3).
        exists (f d). split.
        { rewrite lookup_app_l by (rewrite link_length; by eapply lookup_lt_Some).
          by rewrite Hf, Hd. }
        split; [congruence|]. split; [congruence|].
        intros a. rewrite Hs2, Hpar. split.
        -- intros [Hlt Ha]. split; [done|]. by apply lookup_app_l_Some.
        -- intros [Hlt Ha]. split; [done|].
           rewrite lookup_app_l in Ha; [done|].
           apply lookup_lt_Some in Hi. lia.
      * apply list_lookup_singleton_Some in Hi as [Hi <-].
        assert (i = length l) as -> by lia.
        eexists. split.
        { rewrite lookup_app_r; rewrite link_length, Hlen; [|lia].
          by rewrite Nat.sub_diag. }
        simpl. split; [done|]. split; [done|].
        intros a. rewrite Hmap. split.
        -- intros Ha. split; [by eapply lookup_lt_Some|].
           by apply lookup_app_l_Some.
        -- intros [Hlt Ha]. by rewrite lookup_app_l in Ha.
Qed.

(** ** [buildRemoteTree] *)

Section remoteTree_facts.

Variable range : gmap string nat -> list (string * nat).
Hypothesis range_any : forall m, range m ≡ₚ map_to_list m.

Lemma range_elem (m : gmap string nat) (p : string) (a : nat) :
  (p, a) ∈ range m <-> m !! p = Some a.
Proof. by rewrite range_any, elem_of_map_to_list. Qed.

Lemma markNotSynced_scanLines (l : list string)
    (localPathMap : gmap string nat) :
  exists h,
    markNotSynced (length (cells (scanLines l))) localPathMap
      (range (pathMap (scanLines l))) (cells (scanLines l)) = Some h
    /\ marks (cells (scanLines l)) h (fun b => exists p a,
         pathMap (scanLines l) !! p = Some a /\ localPathMap !! p = None
         /\ onChain (cells (scanLines l)) b a).
Proof.
  destruct (scanLines_built l) as [Hvalid Holder].
  destruct (markNotSynced_marks (length (cells (scanLines l))) localPathMap
              (range (pathMap (scanLines l))) (cells (scanLines l)))
    as (h & Hrun & Hm); [done|done| |].
  { intros p a Hpa%range_elem. by apply (Hvalid p). }
  exists h. split; [done|]. eapply marks_iff; [|exact Hm].
  intros b. by setoid_rewrite range_elem.
Qed.

(** [buildRemoteTree] always returns: the recursion of [setNotSynced]
    ends and no pointer dangles. *)
Lemma buildRemoteTree_returns (r : remote) (localPathMap : gmap string nat) :
  is_Some (buildRemoteTree range r localPathMap).
Proof.
  unfold buildRemoteTree.
  destruct (stdoutPipeErr r); [done|]. destruct (stderrPipeErr r); [done|].
  destruct (startErr r); [done|]. destruct (waitErr r); [done|].
  destruct (markNotSynced_scanLines (lines r) localPathMap) as (h & -> & _).
  done.
Qed.

Lemma buildRemoteTree_ok (r : remote) (localPathMap : gmap string nat) :
  listingSucceeds r ->
  exists h,
    buildRemoteTree range r localPathMap
    = Some (Ok {| cells := h; pathMap := pathMap (scanLines (lines r)) |})
    /\ marks (cells (scanLines (lines r))) h (fun b => exists p a,
         pathMap (scanLines (lines r)) !! p = Some a
         /\ localPathMap !! p = None
         /\ onChain (cells (scanLines (lines r))) b a).
Proof.
  intros (H1 & H2 & H3 & H4). unfold buildRemoteTree.
  rewrite H1, H2, H3, H4.
  destruct (markNotSynced_scanLines (lines r) localPathMap) as (h & Hrun & Hm).
  rewrite Hrun. by exists h.
Qed.

End remoteTree_facts.

Lemma onChain_pathChain (l : list string) (t : tree) :
  NoDup l -> parentFirst l -> listed l t ->
  forall i a p q, l !! i = Some p -> l !! a = Some q ->
    onChain (cells t) i a <-> pathChain l p q.
Proof.
  intros Hnd Hfirst (Hlen & Hmap & Hcells) i a p q Hi Ha. split.
  - intros Hc. revert q Ha.
    induction Hc as [|a d pa Hd Hpa _ IH]; intros q Ha.
    + assert (q = p) as -> by congruence. constructor.
    + destruct (Hcells a q Ha) as (d' & Hd' & _ & _ & Hpar).
      assert (d' = d) as -> by congruence.
      apply Hpar in Hpa as [_ Hpa].
      apply pathChain_up; [by eapply list_elem_of_lookup_2|by apply IH].
  - intros Hc. revert a Ha.
    induction Hc as [|q Hin _ IH]; intros a Ha.
    + rewrite (NoDup_lookup l i a p Hnd Hi Ha). constructor.
    + apply list_elem_of_lookup_1 in Hin as [pa Hpa].
      specialize (IH pa Hpa).
      destruct (decide (pa = a)) as [->|Hne]; [done|].
      pose proof (Hfirst a pa q Ha Hpa) as Hle.
      destruct (Hcells a q Ha) as (d & Hd & _ & _ & Hpar).
      apply (onChain_up _ _ a d pa); [done| |done].
      apply Hpar. split; [lia|done].
Qed.

(** C2 (as the code has it).  For a listing that names each directory
    once and no directory before its parent, [buildRemoteTree] returns a
    tree over exactly the listed paths in which a node is marked
    [Synced = false] exactly when its own path, or the path of a node below
    it through listed parents, is absent from the local map; every other
    node keeps [Synced = true].  A node's [Parent] is the node of its
    parent directory whenever that directory is listed. *)
Theorem remote_tree_ancestor_propagation
    (range : gmap string nat -> list (string * nat)) (r : remote)
    (localPathMap : gmap string nat) :
  (forall m, range m ≡ₚ map_to_list m) ->
  listingSucceeds r -> NoDup (lines r) -> parentFirst (lines r) ->
  exists t,
    buildRemoteTree range r localPathMap = Some (Ok t)
    /\ (forall p, is_Some (pathMap t !! p) <-> p ∈ lines r)
    /\ forall p, p ∈ lines r ->
         exists a d,
           pathMap t !! p = Some a /\ cells t !! a = Some d
           /\ Dir.Path d = p
           /\ (Dir.Synced d = false <->
               exists q, q ∈ lines r /\ localPathMap !! q = None
                         /\ pathChain (lines r) p q)
           /\ (filepath.Dir p ∈ lines r -> filepath.Dir p <> p ->
               exists pa, Dir.Parent d = Some pa
                          /\ pathMap t !! filepath.Dir p = Some pa).
Proof.
  intros Hrange Hok Hnd Hfirst.
  destruct (buildRemoteTree_ok range Hrange r localPathMap Hok)
    as (h & Hrun & Hlen' & Hm).
  pose proof (scanLines_listed (lines r) Hnd) as Hlisted.
  pose proof Hlisted as (Hlen & Hmap & Hcells).
  eexists. split; [exact Hrun|]. simpl. split; [apply scanLines_dom|].
  intros p [i Hi]%list_elem_of_lookup_1.
  destruct (Hcells i p Hi) as (d & Hd & Hpath & Hsync & Hpar).
  destruct (Hm i d Hd) as (b & Hb & Hiff).
  exists i, (Dir.setSynced b d). split; [by apply Hmap|]. split; [done|].
  split; [done|]. split.
  - simpl. rewrite Hiff, Hsync. split.
    + intros [?|(q & a & Hq%Hmap & Hnone & Hc)]; [done|].
      exists q. split; [by eapply list_elem_of_lookup_2|]. split; [done|].
      by apply (onChain_pathChain (lines r) (scanLines (lines r))
                  Hnd Hfirst Hlisted i a p q).
    + intros (q & [a Ha]%list_elem_of_lookup_1 & Hnone & Hc). right.
      exists q, a. split; [by apply Hmap|]. split; [done|].
      by apply (onChain_pathChain (lines r) (scanLines (lines r))
                  Hnd Hfirst Hlisted i a p q).
  - intros [pa Hpa]%list_elem_of_lookup_1 Hne. exists pa. simpl.
    split; [|by apply Hmap]. apply Hpar. split; [|done].
    pose proof (Hfirst i pa p Hi Hpa) as Hle.
    assert (pa <> i); [|lia]. intros ->. congruence.
Qed.

Lemma exampleListing_NoDup : NoDup (lines exampleListing).
Proof. apply (bool_decide_unpack _). by vm_compute. Qed.

Lemma exampleListing_parentFirst : parentFirst (lines exampleListing).
Proof.
  intros a pa q Ha Hpa.
  destruct a as [|[|[|a]]]; simpl in Ha; try done;
    injection Ha as <-; vm_compute in Hpa;
    destruct pa as [|[|[|pa]]]; simpl in Hpa; try done; lia.
Qed.

Lemma remote_tree_ancestor_propagation_witness :
  exists t,
    buildRemoteTree map_to_list exampleListing exampleLocal = Some (Ok t)
    /\ (forall p, is_Some (pathMap t !! p) <-> p ∈ lines exampleListing)
    /\ forall p, p ∈ lines exampleListing ->
         exists a d,
           pathMap t !! p = Some a /\ cells t !! a = Some d
           /\ Dir.Path d = p
           /\ (Dir.Synced d = false <->
               exists q, q ∈ lines exampleListing
                         /\ exampleLocal !! q = None
                         /\ pathChain (lines exampleListing) p q)
           /\ (filepath.Dir p ∈ lines exampleListing ->
               filepath.Dir p <> p ->
               exists pa, Dir.Parent d = Some pa
                          /\ pathMap t !! filepath.Dir p = Some pa).
Proof.
  apply (remote_tree_ancestor_propagation map_to_list exampleListing
           exampleLocal).
  - intros m. reflexivity.
  - repeat split.
  - apply exampleListing_NoDup.
  - apply exampleListing_parentFirst.
Defined.

(** The remote tree [/a], [/a/b], [/a/b/c] against the local directories
    [/a] and [/a/b]: [/a/b/c] is missing locally, so it and both its
    ancestors are reported as not synced; [/a] and [/a/b] are not reported
    as synced. *)
Lemma example_ancestors_not_synced :
  match buildRemoteTree map_to_list exampleListing exampleLocal with
  | Some (Ok t) =>
      syncedAt t "/a" = Some false
      /\ syncedAt t "/a/b" = Some false
      /\ syncedAt t "/a/b/c" = Some false
      /\ ~ (syncedAt t "/a" = Some true /\ syncedAt t "/a/b" = Some true
            /\ syncedAt t "/a/b/c" = Some false)
  | _ => False
  end.
Proof. vm_compute. repeat split. intros [? _]. discriminate. Qed.

(** A listing that repeats a line replaces the node in the map while the
    children of the first node keep pointing at it: here [/a/b] is missing
    locally, the first [/a] is marked, and the [/a] of the map stays
    synced. *)
Lemma repeated_line_loses_mark :
  let r := {| stdoutPipeErr := None; stderrPipeErr := None; startErr := None;
              lines := ["/a"; "/a/b"; "/a"]; waitErr := None |} in
  match buildRemoteTree map_to_list r (list_to_map [("/a", 0)]) with
  | Some (Ok t) =>
      syncedAt t "/a" = Some true /\ syncedAt t "/a/b" = Some false
  | _ => False
  end.
Proof. vm_compute. done. Qed.

(** ** The request handlers *)

(** C4. With the remote listing at hand, [StartSync] answers 400 "invalid
    path" exactly when the path is not a line of the listing; otherwise it
    runs the insert of [sync] and answers 409 "sync already started"
    exactly when a registered job clashes with the path, leaving the
    registry as it was; otherwise it answers 200 at once, the registry has
    gained the one entry for the path, which was not registered before, and
    the job's task has been started and has not returned. *)
Theorem start_validates_then_registers
    (range : gmap string nat -> list (string * nat)) (r : remote)
    (s : system) (path : string) :
  (forall m, range m ≡ₚ map_to_list m) -> listingSucceeds r -> reachable s ->
  (path ∉ lines r ->
     StartSync range r (Data s) (Ok path)
     = Some (JSON 400 "invalid path", Data s, None))
  /\ (path ∈ lines r ->
      (exists k v, Data s !! k = Some v /\ clashes path v) ->
      StartSync range r (Data s) (Ok path)
      = Some (JSON 409 "sync already started", Data s, None))
  /\ (path ∈ lines r ->
      (forall k v, Data s !! k = Some v -> ~ clashes path v) ->
      StartSync range r (Data s) (Ok path)
      = Some (JSON 200 "", <[path := newSync path]> (Data s),
              Some (newSync path))
      /\ Data s !! path = None
      /\ reachable {| Data := <[path := newSync path]> (Data s);
                      tasks := tasks s
                               ++ [{| job := newSync path; state := Live |}] |}).
Proof.
  intros Hrange Hok Hs.
  destruct (buildRemoteTree_ok range Hrange r ∅ Hok) as (h & Hrun & _).
  unfold StartSync. rewrite Hrun. simpl.
  pose proof (scanLines_dom (lines r) path) as Hdom.
  split; [|split].
  - intros Hnot. destruct (pathMap (scanLines (lines r)) !! path) eqn:E; [|done].
    destruct Hnot. apply Hdom. by eexists.
  - intros [a Ha]%Hdom Hclash. rewrite Ha.
    by rewrite (sync_refuses _ _ Hclash).
  - intros [a Ha]%Hdom Hfree. rewrite Ha.
    rewrite (sync_inserts _ _ Hfree). split; [done|]. split.
    + destruct (Data s !! path) as [v|] eqn:E; [|done].
      destruct (Hfree _ _ E). left.
      by apply (inv_key _ (reachable_invariant _ Hs)).
    + pose proof (reachable_step _ _ Hs (step_sync s path)) as Hnext.
      by rewrite (sync_inserts _ _ Hfree) in Hnext.
Qed.

Lemma walkDir_dom (dir : string) (entries : list walkEntry) (t t' : tree) :
  walkDir dir entries t = Ok t' ->
  forall p, is_Some (pathMap t' !! p) <->
            is_Some (pathMap t !! p) \/ p ∈ walkedDirs dir entries.
Proof.
  revert t. induction entries as [|e rest IH]; intros t; simpl.
  - intros [= <-] p. rewrite elem_of_nil. tauto.
  - destruct (walkErr e); [done|]. destruct (walkIsDir e).
    + intros Hrun p. rewrite (IH _ Hrun), addItem_dom, elem_of_cons. tauto.
    + apply IH.
Qed.

Lemma buildLocalTree_dom (fs : localFS) (t : tree) (p : string) :
  buildLocalTree fs = Ok t ->
  is_Some (pathMap t !! p) <-> p ∈ walkedDirs (absDir fs) (walk fs).
Proof.
  unfold buildLocalTree. destruct (absErr fs); [done|].
  intros Hrun. rewrite (walkDir_dom _ _ _ _ Hrun). simpl.
  rewrite lookup_empty. split; [|by right].
  intros [[? ?]|?]; done.
Qed.

(** C5. With the local tree at hand, [Remove] answers 400 "invalid path"
    when the path is not in it; otherwise it answers 409 "sync in
    progress" exactly when a registered job clashes with the path, and
    then deletes nothing; otherwise it calls [os.RemoveAll] once for the
    path and fails exactly when that call fails. *)
Theorem remove_validates_then_deletes (fs : localFS) (removeAll : fsError)
    (Data : gmap string Sync.t) (path : string) (localPath : tree) :
  buildLocalTree fs = Ok localPath ->
  (forall p, is_Some (pathMap localPath !! p) <->
             p ∈ walkedDirs (absDir fs) (walk fs))
  /\ (pathMap localPath !! path = None ->
     Remove fs removeAll Data (Ok path) = (JSON 400 "invalid path", []))
  /\ (is_Some (pathMap localPath !! path) ->
      (exists k v, Data !! k = Some v /\ clashes path v) ->
      Remove fs removeAll Data (Ok path) = (JSON 409 "sync in progress", []))
  /\ (is_Some (pathMap localPath !! path) ->
      (forall k v, Data !! k = Some v -> ~ clashes path v) ->
      Remove fs removeAll Data (Ok path)
      = (match removeAll with
         | Some e => Failed ("remove path: remove all: " ++ e)%string
         | None => JSON 200 ""
         end, [RemoveAll path])).
Proof.
  intros Hbuild. unfold Remove. rewrite Hbuild. split; [|split; [|split]].
  - intros p. by apply buildLocalTree_dom.
  - by intros ->.
  - intros [a ->] Hclash%scan_registry. unfold remove. by rewrite Hclash.
  - intros [a ->] Hfree%scan_registry_false. unfold remove. rewrite Hfree.
    by destruct removeAll.
Qed.

(** ** Instances *)

Lemma start_validates_then_registers_witness :
  StartSync map_to_list exampleListing (Data boot) (Ok "/a/b")
  = Some (JSON 200 "", <["/a/b" := newSync "/a/b"]> (Data boot),
          Some (newSync "/a/b")).
Proof.
  destruct (start_validates_then_registers map_to_list exampleListing boot
              "/a/b" (fun m => reflexivity _)
              (conj eq_refl (conj eq_refl (conj eq_refl eq_refl)))
              reachable_boot) as (_ & _ & H).
  destruct H as (H & _ & _).
  - right. left.
  - intros k v Hk. simpl in Hk. by rewrite lookup_empty in Hk.
  - exact H.
Defined.

Lemma remove_validates_then_deletes_witness :
  Remove exampleFS None ∅ (Ok "/a") = (JSON 200 "", [RemoveAll "/a"])
  /\ Remove exampleFS None ∅ (Ok "/b") = (JSON 400 "invalid path", []).
Proof.
  split.
  - destruct (remove_validates_then_deletes exampleFS None ∅ "/a"
                exampleLocalTree eq_refl) as (_ & _ & _ & H).
    apply H.
    + vm_compute. by eexists.
    + intros k v Hk. by rewrite lookup_empty in Hk.
  - destruct (remove_validates_then_deletes exampleFS None ∅ "/b"
                exampleLocalTree eq_refl) as (_ & H & _).
    apply H. by vm_compute.
Defined.

#[local] Instance descending_dec : RelDecision descending.
Proof. intros x y. unfold descending. apply _. Defined.

Lemma descending_le (x y : SyncResult.t) :
  descending x y <-> String.le (SyncResult.Path y) (SyncResult.Path x).
Proof.
  unfold descending, less, String.le, String.leb, String.ltb.
  rewrite (String.compare_antisym (SyncResult.Path y) (SyncResult.Path x)).
  destruct (String.compare (SyncResult.Path x) (SyncResult.Path y));
    simpl; split; done.
Qed.

#[local] Instance descending_trans : Transitive descending.
Proof.
  intros x y z. rewrite !descending_le. intros Hxy Hyz. by etrans.
Qed.

#[local] Instance descending_total : Total descending.
Proof.
  intros x y. rewrite !descending_le. apply (total String.le).
Qed.

Lemma merge_sort_sortsBy : sortsBy less (merge_sort descending).
Proof.
  intros l. split; [apply merge_sort_Permutation|].
  apply (StronglySorted_merge_sort descending).
Qed.

Lemma twoJobs_reachable : reachable twoJobs.
Proof.
  pose proof (reachable_step _ _
                (reachable_step _ _ reachable_boot (step_sync boot "/a"))
                (step_sync _ "/c")) as H.
  vm_compute in H. vm_compute. exact H.
Qed.

Lemma snapshot_sorted_descending_witness :
  let out := ListSyncs map_to_list (merge_sort descending) (Data twoJobs) in
  length out = size (Data twoJobs)
  /\ StronglySorted
       (fun x y => String.ltb (SyncResult.Path y) (SyncResult.Path x) = true)
       out.
Proof.
  destruct (snapshot_sorted_descending map_to_list (merge_sort descending)
              twoJobs (fun m => reflexivity _) merge_sort_sortsBy
              twoJobs_reachable) as (_ & Hlen & _ & Hsorted & _).
  exact (conj Hlen Hsorted).
Defined.

(** ** The behaviour on small inputs *)

Module examples.

Example percent_token :
  progressToken Arch64 noSizes "42%" (newSync "/a")
  = (Sync.mk "/a" 42 0 0 "" false, []).
Proof. reflexivity. Qed.

Example time_token :
  progressToken Arch64 noSizes "0:00:12" (newSync "/a")
  = (Sync.mk "/a" 0 0 0 "0:00:12" false, []).
Proof. reflexivity. Qed.

Example bytes_token :
  progressToken Arch64 noSizes "1,234" (newSync "/a")
  = (Sync.mk "/a" 0 0 1234 "" false, []).
Proof. reflexivity. Qed.

Example garbage_token :
  progressToken Arch64 noSizes "garbage%%" (newSync "/a")
  = (newSync "/a", ["garbage%%"]).
Proof. reflexivity. Qed.

Example percent_rule_first :
  progressToken Arch64 noSizes "1:2%" (newSync "/a")
  = (newSync "/a", ["1:2%"]).
Proof. reflexivity. Qed.

Example second_start_refused :
  (sync (Data twoJobs) "/a").1.1 = false.
Proof. by vm_compute. Qed.

Example nested_start_refused :
  (sync (Data twoJobs) "/a/b").1.1 = false.
Proof. by vm_compute. Qed.

Example disjoint_start_accepted :
  (sync (Data twoJobs) "/b").1.1 = true.
Proof. by vm_compute. Qed.

Example listing_of_two_jobs :
  SyncResult.Path
    <$> ListSyncs map_to_list (merge_sort descending) (Data twoJobs)
  = ["/c"; "/a"].
Proof. by vm_compute. Qed.

Example every_return_deletes :
  (startSync {| mkdirAll := Some "permission denied"; stderrPipe := None;
                stdoutPipe := None; run := None |}
             (Data twoJobs) (newSync "/a")).1
  = [MkdirAll; LogError "create path failed"; CancelProcess].
Proof. reflexivity. Qed.

End examples.

(** * More of the code *)

(** ** What every built tree keeps *)

Lemma link_lookup_full parent name child (h : list Dir.t) (i : nat) :
  link parent name child h !! i
  = if decide (parent = Some i)
    then Dir.addChild name child <$> h !! i
    else h !! i.
Proof.
  destruct parent as [p|]; simpl.
  - case_decide as Hp.
    + injection Hp as ->. apply list_lookup_alter_eq.
    + apply list_lookup_alter_ne. congruence.
  - try case_decide; done.
Qed.

Lemma addItem_lookup_old synced path name (t : tree) (i : nat) (d : Dir.t) :
  cells t !! i = Some d ->
  exists d', cells (addItem synced path name t) !! i = Some d'
             /\ Dir.Path d' = Dir.Path d /\ Dir.Name d' = Dir.Name d
             /\ Dir.Parent d' = Dir.Parent d /\ Dir.Synced d' = Dir.Synced d.
Proof.
  intros Hi. pose proof (lookup_lt_Some _ _ _ Hi) as Hlt. simpl.
  rewrite lookup_app_l by (by rewrite link_length).
  rewrite link_lookup_full, Hi. case_decide; simpl; eauto 10.
Qed.

Lemma addItem_lookup_new synced path name (t : tree) :
  cells (addItem synced path name t) !! length (cells t)
  = Some (Dir.mk path name ∅ (pathMap t !! filepath.Dir path) synced).
Proof.
  simpl. rewrite lookup_app_r by (by rewrite link_length).
  by rewrite link_length, Nat.sub_diag.
Qed.

Lemma addItem_length synced path name (t : tree) :
  length (cells (addItem synced path name t)) = S (length (cells t)).
Proof. simpl. rewrite length_app, link_length. simpl. lia. Qed.

Lemma keysNamed_addItem synced path name (t : tree) :
  built t -> keysNamed t -> keysNamed (addItem synced path name t).
Proof.
  intros Hb Hk p a Hp. simpl in Hp. rewrite lookup_insert in Hp.
  case_decide as Heq.
  - injection Hp as <-. subst p. rewrite addItem_lookup_new. by eexists.
  - destruct (Hk p a Hp) as (d & Hd & Hpath).
    destruct (addItem_lookup_old synced path name t a d Hd)
      as (d' & Hd' & Hp' & _).
    exists d'. split; [done|congruence].
Qed.

Lemma childrenLinked_addItem synced path name (t : tree) :
  built t -> childrenLinked (cells t) ->
  childrenLinked (cells (addItem synced path name t)).
Proof.
  intros Hb Hl p dp n c Hp Hc.
  destruct (decide (p < length (cells t))) as [Hlt|Hge].
  - destruct (lookup_lt_is_Some_2 _ _ Hlt) as [d0 Hd0].
    assert (Hold : Dir.Children d0 !! n = Some c ->
              exists dc, cells (addItem synced path name t) !! c = Some dc
                         /\ Dir.Parent dc = Some p /\ Dir.Name dc = n).
    { intros Hc0. destruct (Hl p d0 n c Hd0 Hc0) as (dc & Hdc & Hpar & Hname).
      destruct (addItem_lookup_old synced path name t c dc Hdc)
        as (dc' & Hdc' & _ & Hn' & Hp' & _).
      exists dc'. split; [done|]. split; congruence. }
    simpl in Hp. rewrite lookup_app_l in Hp by (by rewrite link_length).
    rewrite link_lookup_full, Hd0 in Hp. case_decide as Hpar.
    + injection Hp as <-. simpl in Hc. rewrite lookup_insert in Hc.
      case_decide as Hn; [|by apply Hold].
      injection Hc as <-. subst n. rewrite addItem_lookup_new.
      eexists. split; [done|]. by split.
    + injection Hp as <-. by apply Hold.
  - pose proof (lookup_lt_Some _ _ _ Hp) as Hlen.
    rewrite addItem_length in Hlen.
    assert (p = length (cells t)) as -> by lia.
    rewrite addItem_lookup_new in Hp. injection Hp as <-.
    simpl in Hc. by rewrite lookup_empty in Hc.
Qed.

Lemma flagged_addItem synced path name (t : tree) :
  (forall a d, cells t !! a = Some d -> Dir.Synced d = synced) ->
  forall a d, cells (addItem synced path name t) !! a = Some d ->
              Dir.Synced d = synced.
Proof.
  intros Hall a d Ha.
  destruct (decide (a < length (cells t))) as [Hlt|Hge].
  - destruct (lookup_lt_is_Some_2 _ _ Hlt) as [d0 Hd0].
    destruct (addItem_lookup_old synced path name t a d0 Hd0)
      as (d' & Hd' & _ & _ & _ & Hs).
    assert (d' = d) as -> by congruence. rewrite Hs. by apply (Hall a).
  - pose proof (lookup_lt_Some _ _ _ Ha) as Hlen.
    rewrite addItem_length in Hlen.
    assert (a = length (cells t)) as -> by lia.
    rewrite addItem_lookup_new in Ha. by injection Ha as <-.
Qed.

Lemma sound_empty synced : sound synced emptyTree.
Proof.
  split; [apply built_empty|..].
  - intros p a H. simpl in H. by rewrite lookup_empty in H.
  - intros p dp n c H. simpl in H. by rewrite lookup_nil in H.
  - intros a d H. simpl in H. by rewrite lookup_nil in H.
Qed.

Lemma sound_addItem synced path name (t : tree) :
  sound synced t -> sound synced (addItem synced path name t).
Proof.
  intros [Hb Hk Hc Hf]. split.
  - by apply built_addItem.
  - by apply keysNamed_addItem.
  - by apply childrenLinked_addItem.
  - by apply flagged_addItem.
Qed.

Lemma scanLines_sound (l : list string) : sound true (scanLines l).
Proof.
  induction l as [|p l IH] using rev_ind; [apply sound_empty|].
  rewrite scanLines_snoc. by apply sound_addItem.
Qed.

Lemma scanLines_length (l : list string) :
  length (cells (scanLines l)) = length l.
Proof.
  induction l as [|p l IH] using rev_ind; [done|].
  rewrite scanLines_snoc, addItem_length, length_app, IH. simpl. lia.
Qed.

Lemma marks_childrenLinked (h h' : list Dir.t) (S : nat -> Prop) :
  marks h h' S -> childrenLinked h -> childrenLinked h'.
Proof.
  intros [Hlen Hm] Hl p dp' n c Hp Hc.
  destruct (h !! p) as [dp|] eqn:E.
  - destruct (Hm p dp E) as (b & Hb & _).
    assert (dp' = Dir.setSynced b dp) as -> by congruence. simpl in Hc.
    destruct (Hl p dp n c E Hc) as (dc & Hdc & Hpar & Hname).
    destruct (Hm c dc Hdc) as (b' & Hb' & _).
    exists (Dir.setSynced b' dc). by split.
  - apply lookup_ge_None in E. apply lookup_lt_Some in Hp. lia.
Qed.

(** ** [buildRemoteTree] on any listing *)

Lemma buildRemoteTree_cases
    (range : gmap string nat -> list (string * nat)) (r : remote)
    (localPathMap : gmap string nat) :
  (forall m, range m ≡ₚ map_to_list m) ->
  (listingSucceeds r /\ exists h,
      buildRemoteTree range r localPathMap
      = Some (Ok {| cells := h; pathMap := pathMap (scanLines (lines r)) |})
      /\ marks (cells (scanLines (lines r))) h (fun b => exists p a,
           pathMap (scanLines (lines r)) !! p = Some a
           /\ localPathMap !! p = None
           /\ onChain (cells (scanLines (lines r))) b a))
  \/ (~ listingSucceeds r
      /\ exists msg, buildRemoteTree range r localPathMap = Some (Error msg)).
Proof.
  intros Hrange.
  destruct (stdoutPipeErr r) as [e|] eqn:E1.
  { right. split; [intros (H & _); congruence|].
    unfold buildRemoteTree. rewrite E1. by eexists. }
  destruct (stderrPipeErr r) as [e|] eqn:E2.
  { right. split; [intros (_ & H & _); congruence|].
    unfold buildRemoteTree. rewrite E1, E2. by eexists. }
  destruct (startErr r) as [e|] eqn:E3.
  { right. split; [intros (_ & _ & H & _); congruence|].
    unfold buildRemoteTree. rewrite E1, E2, E3. by eexists. }
  destruct (waitErr r) as [e|] eqn:E4.
  { right. split; [intros (_ & _ & _ & H); congruence|].
    unfold buildRemoteTree. rewrite E1, E2, E3, E4. by eexists. }
  left. split; [done|]. by apply buildRemoteTree_ok.
Qed.

Lemma buildRemoteTree_Ok_inv
    (range : gmap string nat -> list (string * nat)) (r : remote)
    (localPathMap : gmap string nat) (t : tree) :
  (forall m, range m ≡ₚ map_to_list m) ->
  buildRemoteTree range r localPathMap = Some (Ok t) ->
  listingSucceeds r
  /\ pathMap t = pathMap (scanLines (lines r))
  /\ marks (cells (scanLines (lines r))) (cells t) (fun b => exists p a,
       pathMap (scanLines (lines r)) !! p = Some a
       /\ localPathMap !! p = None
       /\ onChain (cells (scanLines (lines r))) b a).
Proof.
  intros Hrange Hrun.
  destruct (buildRemoteTree_cases range r localPathMap Hrange)
    as [(Hok & h & Heq & Hm)|(_ & msg & Heq)]; rewrite Heq in Hrun; [|done].
  injection Hrun as <-. done.
Qed.

(** X1. [buildRemoteTree] always returns, whatever the listing (repeated
    lines, children before parents) and whatever the order the map is
    ranged over: the walk of [setNotSynced] up the parents ends.  It
    returns an error and no tree exactly when a pipe, the start or the wait
    of the command fails; otherwise the tree has one cell for each line and
    its map has exactly the listed paths as keys. *)
Theorem remote_listing_all_or_nothing
    (range : gmap string nat -> list (string * nat)) (r : remote)
    (localPathMap : gmap string nat) :
  (forall m, range m ≡ₚ map_to_list m) ->
  (listingSucceeds r /\ exists t,
      buildRemoteTree range r localPathMap = Some (Ok t)
      /\ (forall p, is_Some (pathMap t !! p) <-> p ∈ lines r)
      /\ length (cells t) = length (lines r))
  \/ (~ listingSucceeds r
      /\ exists msg, buildRemoteTree range r localPathMap = Some (Error msg)).
Proof.
  intros Hrange.
  destruct (buildRemoteTree_cases range r localPathMap Hrange)
    as [(Hok & h & Heq & Hlen & _)|Hfail]; [left|by right].
  split; [done|]. eexists. split; [exact Heq|]. simpl. split.
  - apply scanLines_dom.
  - rewrite Hlen. apply scanLines_length.
Qed.

Lemma remote_listing_all_or_nothing_witness :
  exists t,
    buildRemoteTree map_to_list exampleListing exampleLocal = Some (Ok t)
    /\ length (cells t) = 3.
Proof.
  destruct (remote_listing_all_or_nothing map_to_list exampleListing
              exampleLocal (fun m => reflexivity _))
    as [(_ & t & Ht & _ & Hlen)|(Hfail & _)].
  - exists t. by split.
  - destruct Hfail. by repeat split.
Defined.

(** X2. When every listed path is present in the local map, no node of
    the returned tree is marked: all keep [Synced = true], whatever the
    listing. *)
Theorem all_local_all_synced
    (range : gmap string nat -> list (string * nat)) (r : remote)
    (localPathMap : gmap string nat) (t : tree) :
  (forall m, range m ≡ₚ map_to_list m) ->
  (forall p, p ∈ lines r -> is_Some (localPathMap !! p)) ->
  buildRemoteTree range r localPathMap = Some (Ok t) ->
  forall a d, cells t !! a = Some d -> Dir.Synced d = true.
Proof.
  intros Hrange Hlocal Hrun a d Ha.
  destruct (buildRemoteTree_Ok_inv range r localPathMap t Hrange Hrun)
    as (_ & _ & Hlen & Hm).
  destruct (cells (scanLines (lines r)) !! a) as [d0|] eqn:E.
  - destruct (Hm a d0 E) as (b & Hb & Hiff).
    assert (d = Dir.setSynced b d0) as -> by congruence. simpl.
    destruct b; [done|]. destruct (proj1 Hiff eq_refl) as [Hs|(p & c & Hp & Hn & _)].
    + rewrite (sound_flag _ _ (scanLines_sound (lines r)) a d0 E) in Hs. done.
    + destruct (Hlocal p) as [x Hx]; [|congruence].
      apply scanLines_dom. by eexists.
  - apply lookup_ge_None in E. apply lookup_lt_Some in Ha. lia.
Qed.

Lemma all_local_all_synced_witness :
  Forall (fun d => Dir.Synced d = true) (cells exampleSyncedTree).
Proof.
  apply Forall_lookup.
  apply (all_local_all_synced map_to_list exampleListing exampleLocalAll).
  - intros m. reflexivity.
  - intros p Hp.
    repeat (apply elem_of_cons in Hp as [->|Hp]; [by vm_compute; eexists|]).
    by apply elem_of_nil in Hp.
  - reflexivity.
Defined.

(** X3. Whatever the listing, a listed path that is absent from the local
    map is reported as not synced: the node the map holds for it has
    [Synced = false]. *)
Theorem absent_locally_reported_unsynced
    (range : gmap string nat -> list (string * nat)) (r : remote)
    (localPathMap : gmap string nat) (t : tree) (p : string) :
  (forall m, range m ≡ₚ map_to_list m) ->
  buildRemoteTree range r localPathMap = Some (Ok t) ->
  p ∈ lines r -> localPathMap !! p = None ->
  syncedAt t p = Some false.
Proof.
  intros Hrange Hrun Hp Hnone.
  destruct (buildRemoteTree_Ok_inv range r localPathMap t Hrange Hrun)
    as (_ & Hmap & Hlen & Hm).
  apply scanLines_dom in Hp as [a Ha].
  destruct (sound_keys _ _ (scanLines_sound (lines r)) p a Ha) as (d & Hd & _).
  destruct (Hm a d Hd) as (b & Hb & Hiff).
  unfold syncedAt. rewrite Hmap, Ha, Hb. simpl. f_equal.
  apply Hiff. right. exists p, a. split; [done|]. split; [done|constructor].
Qed.

Lemma absent_locally_reported_unsynced_witness :
  syncedAt exampleRemoteTree "/a/b/c" = Some false.
Proof.
  apply (absent_locally_reported_unsynced map_to_list exampleListing
           exampleLocal).
  - intros m. reflexivity.
  - reflexivity.
  - right. right. left.
  - reflexivity.
Defined.

Lemma buildRemoteTree_keysNamed
    (range : gmap string nat -> list (string * nat)) (r : remote)
    (localPathMap : gmap string nat) (t : tree) :
  (forall m, range m ≡ₚ map_to_list m) ->
  buildRemoteTree range r localPathMap = Some (Ok t) -> keysNamed t.
Proof.
  intros Hrange Hrun.
  destruct (buildRemoteTree_Ok_inv range r localPathMap t Hrange Hrun)
    as (_ & Hmap & _ & Hm).
  intros p a Hp. rewrite Hmap in Hp.
  destruct (sound_keys _ _ (scanLines_sound (lines r)) p a Hp)
    as (d & Hd & Hpath).
  destruct (Hm a d Hd) as (b & Hb & _).
  exists (Dir.setSynced b d). by split.
Qed.

(** X4. In every tree [buildRemoteTree] returns the links agree: a key of
    the map leads to a cell with that path, every [Parent] pointer leads to
    an older cell, and every entry of a node's [Children] leads to a cell
    that names this node as its [Parent] and the entry's key as its
    [Name]. *)
Theorem remote_tree_links_agree
    (range : gmap string nat -> list (string * nat)) (r : remote)
    (localPathMap : gmap string nat) (t : tree) :
  (forall m, range m ≡ₚ map_to_list m) ->
  buildRemoteTree range r localPathMap = Some (Ok t) ->
  keysNamed t /\ parentsOlder (cells t) /\ childrenLinked (cells t).
Proof.
  intros Hrange Hrun.
  destruct (buildRemoteTree_Ok_inv range r localPathMap t Hrange Hrun)
    as (_ & Hmap & Hm).
  pose proof (scanLines_sound (lines r)) as [[Hvalid Holder] Hkeys Hchildren _].
  split; [|split].
  - intros p a Hp. rewrite Hmap in Hp.
    destruct (Hkeys p a Hp) as (d & Hd & Hpath).
    destruct Hm as [_ Hm]. destruct (Hm a d Hd) as (b & Hb & _).
    exists (Dir.setSynced b d). by split.
  - by apply (marks_parentsOlder _ _ _ Hm).
  - by apply (marks_childrenLinked _ _ _ Hm).
Qed.

Lemma remote_tree_links_agree_witness :
  keysNamed exampleRemoteTree /\ parentsOlder (cells exampleRemoteTree)
  /\ childrenLinked (cells exampleRemoteTree).
Proof.
  apply (remote_tree_links_agree map_to_list exampleListing exampleLocal).
  - intros m. reflexivity.
  - reflexivity.
Defined.

(** ** [buildLocalTree] *)

Lemma dropBytes_app (pre t : string) :
  strings.dropBytes (String.length pre) (pre ++ t) = t.
Proof. induction pre as [|c pre IH]; simpl; [by destruct t|done]. Qed.

Lemma TrimPrefix_app (pre t : string) :
  strings.TrimPrefix (pre ++ t) pre = t.
Proof.
  unfold strings.TrimPrefix. by rewrite HasPrefix_app, dropBytes_app.
Qed.

Lemma rootedPath_rooted (dir path : string) :
  strings.HasPrefix (rootedPath dir path) "/" = true.
Proof.
  unfold rootedPath.
  destruct (strings.HasPrefix (strings.TrimPrefix path dir) "/") eqn:E;
    [done|]. apply (HasPrefix_app "/").
Qed.

Lemma walkedDirs_rooted (dir : string) (entries : list walkEntry) (p : string) :
  p ∈ walkedDirs dir entries -> strings.HasPrefix p "/" = true.
Proof.
  induction entries as [|e rest IH]; simpl.
  - intros H. by apply elem_of_nil in H.
  - destruct (walkIsDir e); [|done].
    intros [->|H]%elem_of_cons; [apply rootedPath_rooted|by apply IH].
Qed.

Lemma walkDir_cases (dir : string) (entries : list walkEntry) (t : tree) :
  sound false t ->
  (Forall (fun e => walkErr e = None) entries
   /\ exists t', walkDir dir entries t = Ok t' /\ sound false t')
  \/ (~ Forall (fun e => walkErr e = None) entries
      /\ exists msg, walkDir dir entries t = Error msg).
Proof.
  revert t. induction entries as [|e rest IH]; intros t Ht; simpl.
  - left. split; [constructor|]. by exists t.
  - destruct (walkErr e) as [msg|] eqn:E.
    { right. split; [|by eexists].
      intros H. apply Forall_cons in H as [H _]. congruence. }
    assert (Hstep : forall t1, sound false t1 ->
      (Forall (fun e => walkErr e = None) (e :: rest)
       /\ exists t', walkDir dir rest t1 = Ok t' /\ sound false t')
      \/ (~ Forall (fun e => walkErr e = None) (e :: rest)
          /\ exists msg, walkDir dir rest t1 = Error msg)).
    { intros t1 Ht1. destruct (IH t1 Ht1) as [[Hall Hok]|[Hnot Herr]].
      - left. split; [by constructor|done].
      - right. split; [|done]. intros H. apply Forall_cons in H as [_ H].
        by apply Hnot. }
    destruct (walkIsDir e); apply Hstep; [by apply sound_addItem|done].
Qed.

Lemma local_tree_cases (fs : localFS) :
  (noWalkError fs /\ exists t, buildLocalTree fs = Ok t)
  \/ (~ noWalkError fs /\ exists msg, buildLocalTree fs = Error msg).
Proof.
  unfold noWalkError, buildLocalTree.
  destruct (absErr fs) as [e|] eqn:E.
  { right. split; [by intros [? _]|by eexists]. }
  destruct (walkDir_cases (absDir fs) (walk fs) emptyTree (sound_empty false))
    as [(Hall & t & Hrun & _)|(Hnot & Herr)].
  - left. split; [done|]. by exists t.
  - right. split; [|done]. by intros [_ H].
Qed.

(** X5. [buildLocalTree] is all or nothing: it returns an error and no
    tree exactly when the root cannot be made absolute or some entry of the
    walk carries an error, wherever in the walk it stands.  Otherwise every
    key of the tree starts with a slash, every node has [Synced = false],
    and the links of the tree agree. *)
Theorem local_tree_all_or_nothing (fs : localFS) :
  (noWalkError fs /\ exists t,
      buildLocalTree fs = Ok t
      /\ (forall p, is_Some (pathMap t !! p) ->
                    strings.HasPrefix p "/" = true)
      /\ (forall a d, cells t !! a = Some d -> Dir.Synced d = false)
      /\ keysNamed t /\ parentsOlder (cells t) /\ childrenLinked (cells t))
  \/ (~ noWalkError fs /\ exists msg, buildLocalTree fs = Error msg).
Proof.
  unfold noWalkError, buildLocalTree.
  destruct (absErr fs) as [e|] eqn:E.
  { right. split; [by intros [? _]|by eexists]. }
  destruct (walkDir_cases (absDir fs) (walk fs) emptyTree (sound_empty false))
    as [(Hall & t & Hrun & [[_ Holder] Hkeys Hchildren Hflag])|(Hnot & Herr)].
  - left. split; [done|]. exists t. split; [done|].
    split; [|by repeat split].
    intros p Hp. apply (walkDir_dom _ _ _ _ Hrun) in Hp as [[x Hx]|Hp].
    + simpl in Hx. by rewrite lookup_empty in Hx.
    + by apply (walkedDirs_rooted (absDir fs) (walk fs)).
  - right. split; [|done]. by intros [_ H].
Qed.

(** X6. How [buildLocalTree] names a directory: the root of the walk is
    [/], a directory below it is its path with the root cut off, and every
    name starts with a slash. *)
Theorem local_paths_are_rooted (dir rel path : string) :
  rootedPath dir dir = "/"
  /\ rootedPath dir (dir ++ "/" ++ rel) = ("/" ++ rel)%string
  /\ strings.HasPrefix (rootedPath dir path) "/" = true.
Proof.
  split; [|split].
  - unfold rootedPath.
    assert (strings.TrimPrefix dir dir = "") as ->; [|done].
    pose proof (TrimPrefix_app dir "") as H.
    by rewrite string_app_nil_r in H.
  - unfold rootedPath. rewrite TrimPrefix_app. done.
  - apply rootedPath_rooted.
Qed.

(** ** [ListDirs] *)

Lemma marks_unique (h h1 h2 : list Dir.t) (S : nat -> Prop) :
  marks h h1 S -> marks h h2 S -> h1 = h2.
Proof.
  intros [Hlen1 Hm1] [Hlen2 Hm2]. apply list_eq. intros i.
  destruct (h !! i) as [d|] eqn:E.
  - destruct (Hm1 i d E) as (b1 & -> & Hiff1).
    destruct (Hm2 i d E) as (b2 & -> & Hiff2).
    assert (b1 = b2) as ->; [|done].
    destruct b1, b2; try done.
    + by apply (proj2 Hiff1), (proj1 Hiff2).
    + symmetry. by apply (proj2 Hiff2), (proj1 Hiff1).
  - apply lookup_ge_None in E.
    rewrite (proj2 (lookup_ge_None h1 i)) by lia.
    by rewrite (proj2 (lookup_ge_None h2 i)) by lia.
Qed.

(** The tree [buildRemoteTree] returns is the same for every order in
    which the map is ranged over. *)
Lemma buildRemoteTree_order
    (range1 range2 : gmap string nat -> list (string * nat)) (r : remote)
    (localPathMap : gmap string nat) :
  (forall m, range1 m ≡ₚ map_to_list m) ->
  (forall m, range2 m ≡ₚ map_to_list m) ->
  buildRemoteTree range1 r localPathMap
  = buildRemoteTree range2 r localPathMap.
Proof.
  intros H1 H2.
  destruct (buildRemoteTree_cases range1 r localPathMap H1)
    as [(Hok & h1 & Heq1 & Hm1)|(Hfail & _)].
  - destruct (buildRemoteTree_ok range2 H2 r localPathMap Hok)
      as (h2 & Heq2 & Hm2).
    rewrite Heq1, Heq2. by rewrite (marks_unique _ _ _ _ Hm1 Hm2).
  - unfold buildRemoteTree.
    destruct (stdoutPipeErr r) eqn:E1; [done|].
    destruct (stderrPipeErr r) eqn:E2; [done|].
    destruct (startErr r) eqn:E3; [done|].
    destruct (waitErr r) eqn:E4; [done|].
    destruct Hfail. by repeat split.
Qed.

Lemma ltb_false (x y : string) :
  String.ltb y x = false -> x = y \/ String.ltb x y = true.
Proof.
  unfold String.ltb. rewrite (String.compare_antisym y x).
  destruct (String.compare x y) eqn:E; simpl; try done.
  - left. by apply String.compare_eq_iff.
  - by right.
Qed.

Lemma strings_sorted_strictly (l : list string) :
  NoDup l ->
  StronglySorted (fun x y => String.ltb y x = false) l ->
  StronglySorted (fun x y => String.ltb x y = true) l.
Proof.
  induction l as [|x l IH]; intros Hnd Hs; [constructor|].
  apply NoDup_cons in Hnd as [Hx Hnd].
  apply StronglySorted_cons in Hs as [Hall Hs].
  constructor; [by apply IH|].
  rewrite Forall_forall in Hall |- *. intros y Hy.
  destruct (ltb_false _ _ (Hall y Hy)) as [->|]; done.
Qed.

Lemma sorted_keys_unique (l1 l2 : list string) :
  l1 ≡ₚ l2 ->
  StronglySorted (fun x y => String.ltb y x = false) l1 ->
  StronglySorted (fun x y => String.ltb y x = false) l2 ->
  l1 = l2.
Proof.
  intros Hp Hs1 Hs2.
  apply (StronglySorted_unique_strong (fun x y => String.ltb y x = false));
    [|done..].
  intros x y _ _ Hxy Hyx.
  destruct (ltb_false _ _ Hxy) as [|H]; [done|congruence].
Qed.

Lemma mapM_dirResult (t : tree) (keys : list string) :
  keysNamed t -> (forall k, k ∈ keys -> is_Some (pathMap t !! k)) ->
  exists results,
    mapM (dirResult t) keys = Some results
    /\ DirResult.Path <$> results = keys
    /\ forall x, x ∈ results ->
         syncedAt t (DirResult.Path x) = Some (DirResult.Synced x).
Proof.
  intros Hnamed. induction keys as [|k keys IH]; intros Hkeys.
  - exists []. repeat split. intros x Hx. by apply elem_of_nil in Hx.
  - destruct IH as (results & Hrun & Hpaths & Hsynced).
    { intros k' Hk'. apply Hkeys. by right. }
    destruct (Hkeys k) as [a Ha]; [by left|].
    destruct (Hnamed k a Ha) as (d & Hd & Hpath).
    exists (DirResult.mk k (Dir.Synced d) :: results). split; [|split].
    + assert (dirResult t k = Some (DirResult.mk k (Dir.Synced d))) as Hk.
      { unfold dirResult. by rewrite Ha, Hd, Hpath. }
      simpl. rewrite Hk. simpl. by rewrite Hrun.
    + rewrite fmap_cons. simpl. by rewrite Hpaths.
    + intros x [->|Hx]%elem_of_cons; [|by apply Hsynced].
      unfold syncedAt. simpl. by rewrite Ha, Hd.
Qed.

Section dirs_facts.

Variable rangeMark rangeKeys : gmap string nat -> list (string * nat).
Variable sortStrings : list string -> list string.
Hypothesis rangeMark_any : forall m, rangeMark m ≡ₚ map_to_list m.
Hypothesis rangeKeys_any : forall m, rangeKeys m ≡ₚ map_to_list m.
Hypothesis sortStrings_sorts : sortsBy String.ltb sortStrings.

Lemma sorted_keys (m : gmap string nat) :
  sortStrings (rangeKeys m).*1 ≡ₚ (map_to_list m).*1
  /\ NoDup (sortStrings (rangeKeys m).*1)
  /\ StronglySorted (fun x y => String.ltb y x = false)
       (sortStrings (rangeKeys m).*1).
Proof.
  destruct (sortStrings_sorts (rangeKeys m).*1) as [Hperm Hsorted].
  assert (Hp : sortStrings (rangeKeys m).*1 ≡ₚ (map_to_list m).*1).
  { rewrite Hperm. by rewrite rangeKeys_any. }
  split; [done|]. split; [|done].
  rewrite Hp. apply NoDup_fst_map_to_list.
Qed.

Lemma sorted_keys_elem (m : gmap string nat) (k : string) :
  k ∈ sortStrings (rangeKeys m).*1 <-> is_Some (m !! k).
Proof.
  destruct (sorted_keys m) as (Hp & _). rewrite Hp.
  rewrite list_elem_of_fmap. split.
  - intros ([k' a] & -> & H%elem_of_map_to_list). by eexists.
  - intros [a Ha]. exists (k, a). split; [done|].
    by apply elem_of_map_to_list.
Qed.

Lemma ListDirs_ok (fs : localFS) (r : remote) (localPathMap t : tree) :
  buildLocalTree fs = Ok localPathMap ->
  buildRemoteTree rangeMark r (pathMap localPathMap) = Some (Ok t) ->
  exists results,
    ListDirs rangeMark rangeKeys sortStrings fs r = Some (Ok results)
    /\ DirResult.Path <$> results = sortStrings (rangeKeys (pathMap t)).*1
    /\ forall x, x ∈ results ->
         syncedAt t (DirResult.Path x) = Some (DirResult.Synced x).
Proof.
  intros Hlocal Hremote.
  pose proof (buildRemoteTree_keysNamed rangeMark r (pathMap localPathMap)
                t rangeMark_any Hremote) as Hnamed.
  destruct (mapM_dirResult t (sortStrings (rangeKeys (pathMap t)).*1) Hnamed)
    as (results & Hrun & Hpaths & Hsynced).
  { intros k. by rewrite sorted_keys_elem. }
  exists results. split; [|done].
  unfold ListDirs. by rewrite Hlocal, Hremote, Hrun.
Qed.

End dirs_facts.

Lemma syncedAt_absent
    (range : gmap string nat -> list (string * nat)) (r : remote)
    (localPathMap : gmap string nat) (t : tree) (p : string) :
  (forall m, range m ≡ₚ map_to_list m) ->
  buildRemoteTree range r localPathMap = Some (Ok t) ->
  p ∈ lines r -> localPathMap !! p = None ->
  syncedAt t p = Some false.
Proof.
  intros Hrange Hrun Hp Hnone.
  destruct (buildRemoteTree_Ok_inv range r localPathMap t Hrange Hrun)
    as (_ & Hmap & Hlen & Hm).
  apply scanLines_dom in Hp as [a Ha].
  destruct (sound_keys _ _ (scanLines_sound (lines r)) p a Ha) as (d & Hd & _).
  destruct (Hm a d Hd) as (b & Hb & Hiff).
  unfold syncedAt. rewrite Hmap, Ha, Hb. simpl. f_equal.
  apply Hiff. right. exists p, a. split; [done|]. split; [done|constructor].
Qed.

Lemma syncedAt_listed
    (range : gmap string nat -> list (string * nat)) (r : remote)
    (localPathMap : gmap string nat) (t : tree) (p : string) :
  (forall m, range m ≡ₚ map_to_list m) ->
  NoDup (lines r) -> parentFirst (lines r) ->
  buildRemoteTree range r localPathMap = Some (Ok t) ->
  p ∈ lines r ->
  exists b, syncedAt t p = Some b
    /\ (b = false <->
        exists q, q ∈ lines r /\ localPathMap !! q = None
                  /\ pathChain (lines r) p q).
Proof.
  intros Hrange Hnd Hfirst Hrun [i Hi]%list_elem_of_lookup_1.
  destruct (buildRemoteTree_Ok_inv range r localPathMap t Hrange Hrun)
    as (_ & Hmap' & Hlen' & Hm).
  pose proof (scanLines_listed (lines r) Hnd) as Hlisted.
  pose proof Hlisted as (Hlen & Hmap & Hcells).
  destruct (Hcells i p Hi) as (d & Hd & Hpath & Hsync & Hpar).
  destruct (Hm i d Hd) as (b & Hb & Hiff).
  exists b. split.
  { unfold syncedAt. rewrite Hmap', (proj2 (Hmap p i) Hi), Hb. done. }
  rewrite Hiff, Hsync. split.
  - intros [?|(q & a & Hq%Hmap & Hnone & Hc)]; [done|].
    exists q. split; [by eapply list_elem_of_lookup_2|]. split; [done|].
    by apply (onChain_pathChain (lines r) (scanLines (lines r))
                Hnd Hfirst Hlisted i a p q).
  - intros (q & [a Ha]%list_elem_of_lookup_1 & Hnone & Hc). right.
    exists q, a. split; [by apply Hmap|]. split; [done|].
    by apply (onChain_pathChain (lines r) (scanLines (lines r))
                Hnd Hfirst Hlisted i a p q).
Qed.

#[local] Instance ascending_dec : RelDecision ascending.
Proof. intros x y. unfold ascending. apply _. Defined.

Lemma ascending_le (x y : string) : ascending x y <-> String.le x y.
Proof.
  unfold ascending, String.le, String.leb, String.ltb.
  rewrite (String.compare_antisym x y).
  destruct (String.compare y x); simpl; split; done.
Qed.

Lemma merge_sort_strings : sortsBy String.ltb (merge_sort String.le).
Proof.
  intros l. split; [apply merge_sort_Permutation|].
  pose proof (StronglySorted_merge_sort String.le l) as H.
  induction H as [|x k _ IH Hall]; constructor; [done|].
  eapply Forall_impl; [exact Hall|]. intros y Hy. by apply ascending_le.
Qed.

(** X7. [ListDirs] answers with an error exactly when the local walk or
    the remote listing fails.  Otherwise its results name each listed path
    once, in strictly ascending byte order, and a path that is not a local
    directory is never reported as synced.  The answer does not depend on
    the order in which Go ranges over the maps nor on what [sort.Strings]
    does. *)
Theorem dirs_listing_sorted
    (rangeMark rangeKeys : gmap string nat -> list (string * nat))
    (sortStrings : list string -> list string) (fs : localFS) (r : remote) :
  (forall m, rangeMark m ≡ₚ map_to_list m) ->
  (forall m, rangeKeys m ≡ₚ map_to_list m) ->
  sortsBy String.ltb sortStrings ->
  ((noWalkError fs /\ listingSucceeds r /\ exists results,
       ListDirs rangeMark rangeKeys sortStrings fs r = Some (Ok results)
       /\ (forall p, p ∈ DirResult.Path <$> results <-> p ∈ lines r)
       /\ StronglySorted (fun x y => String.ltb x y = true)
            (DirResult.Path <$> results)
       /\ (forall x, x ∈ results ->
             DirResult.Path x ∉ walkedDirs (absDir fs) (walk fs) ->
             DirResult.Synced x = false))
   \/ ((~ noWalkError fs \/ ~ listingSucceeds r)
       /\ exists msg,
            ListDirs rangeMark rangeKeys sortStrings fs r = Some (Error msg)))
  /\ (forall rangeMark' rangeKeys' sortStrings',
        (forall m, rangeMark' m ≡ₚ map_to_list m) ->
        (forall m, rangeKeys' m ≡ₚ map_to_list m) ->
        sortsBy String.ltb sortStrings' ->
        ListDirs rangeMark' rangeKeys' sortStrings' fs r
        = ListDirs rangeMark rangeKeys sortStrings fs r).
Proof.
  intros Hmark Hkeys Hsort. split.
  - destruct (local_tree_cases fs) as [(Hwalk & lt & Hlocal)|(Hwalk & e & Hlocal)].
    2:{ right. split; [by left|]. unfold ListDirs. rewrite Hlocal. by eexists. }
    destruct (buildRemoteTree_cases rangeMark r (pathMap lt) Hmark)
      as [(Hok & h & Hremote & _)|(Hfail & e & Hremote)].
    2:{ right. split; [by right|]. unfold ListDirs.
        rewrite Hlocal, Hremote. by eexists. }
    left. split; [done|]. split; [done|].
    destruct (ListDirs_ok rangeMark rangeKeys sortStrings Hmark Hkeys Hsort
                fs r lt _ Hlocal Hremote) as (results & Hrun & Hpaths & Hsynced).
    exists results. split; [done|].
    destruct (sorted_keys rangeKeys sortStrings Hkeys Hsort
                (pathMap (scanLines (lines r)))) as (_ & Hnd & Hsorted).
    simpl in Hpaths. split; [|split].
    + intros p. rewrite Hpaths.
      rewrite (sorted_keys_elem rangeKeys sortStrings Hkeys Hsort).
      apply scanLines_dom.
    + rewrite Hpaths. by apply strings_sorted_strictly.
    + intros x Hx Hnot.
      assert (Hin : DirResult.Path x ∈ lines r).
      { apply scanLines_dom.
        apply (sorted_keys_elem rangeKeys sortStrings Hkeys Hsort).
        rewrite <- Hpaths. by apply list_elem_of_fmap_2. }
      pose proof (Hsynced x Hx) as Hs.
      rewrite (syncedAt_absent rangeMark r (pathMap lt) _ (DirResult.Path x)
                 Hmark Hremote Hin) in Hs; [congruence|].
      destruct (pathMap lt !! DirResult.Path x) eqn:E; [|done].
      destruct Hnot. apply (buildLocalTree_dom fs lt); [done|by eexists].
  - intros rangeMark' rangeKeys' sortStrings' Hmark' Hkeys' Hsort'.
    unfold ListDirs. destruct (buildLocalTree fs) as [lt|e]; [|done].
    rewrite (buildRemoteTree_order rangeMark' rangeMark r (pathMap lt)
               Hmark' Hmark).
    destruct (buildRemoteTree rangeMark r (pathMap lt)) as [[t|e]|]; [|done..].
    destruct (sorted_keys rangeKeys sortStrings Hkeys Hsort (pathMap t))
      as (Hp & _ & Hs).
    destruct (sorted_keys rangeKeys' sortStrings' Hkeys' Hsort' (pathMap t))
      as (Hp' & _ & Hs').
    rewrite (sorted_keys_unique (sortStrings' (rangeKeys' (pathMap t)).*1)
               (sortStrings (rangeKeys (pathMap t)).*1)); [done| |done..].
    by rewrite Hp, Hp'.
Qed.

Lemma dirs_listing_sorted_witness :
  exists results,
    ListDirs map_to_list map_to_list (merge_sort String.le)
      exampleFS exampleListing = Some (Ok results)
    /\ StronglySorted (fun x y => String.ltb x y = true)
         (DirResult.Path <$> results).
Proof.
  destruct (dirs_listing_sorted map_to_list map_to_list
              (merge_sort String.le) exampleFS exampleListing
              (fun m => reflexivity _) (fun m => reflexivity _)
              merge_sort_strings) as [Hcases _].
  destruct Hcases as [(_ & _ & results & Hrun & _ & Hsorted & _)|(_ & msg & Hrun)].
  - exists results. by split.
  - vm_compute in Hrun. discriminate.
Defined.

(** X8. For a listing that names each directory once and no directory
    before its parent, [ListDirs] reports a directory as synced exactly
    when it and every listed directory below it, through listed parents,
    is a directory of the local walk. *)
Theorem dirs_synced_iff_subtree_local
    (rangeMark rangeKeys : gmap string nat -> list (string * nat))
    (sortStrings : list string -> list string) (fs : localFS) (r : remote)
    (results : list DirResult.t) :
  (forall m, rangeMark m ≡ₚ map_to_list m) ->
  (forall m, rangeKeys m ≡ₚ map_to_list m) ->
  sortsBy String.ltb sortStrings ->
  NoDup (lines r) -> parentFirst (lines r) ->
  ListDirs rangeMark rangeKeys sortStrings fs r = Some (Ok results) ->
  forall x, x ∈ results ->
    (DirResult.Synced x = true <->
     forall q, q ∈ lines r -> pathChain (lines r) (DirResult.Path x) q ->
               q ∈ walkedDirs (absDir fs) (walk fs)).
Proof.
  intros Hmark Hkeys Hsort Hnd Hfirst Hrun x Hx.
  destruct (buildLocalTree fs) as [lt|e] eqn:Hlocal;
    [|unfold ListDirs in Hrun; by rewrite Hlocal in Hrun].
  destruct (buildRemoteTree rangeMark r (pathMap lt)) as [[t|e]|] eqn:Hremote;
    [|unfold ListDirs in Hrun; by rewrite Hlocal, Hremote in Hrun..].
  destruct (ListDirs_ok rangeMark rangeKeys sortStrings Hmark Hkeys Hsort
              fs r lt t Hlocal Hremote) as (results' & Hrun' & Hpaths & Hsynced).
  assert (results' = results) as -> by congruence.
  assert (Hin : DirResult.Path x ∈ lines r).
  { destruct (buildRemoteTree_Ok_inv rangeMark r (pathMap lt) t Hmark Hremote)
      as (_ & Hmap & _).
    apply scanLines_dom. rewrite <- Hmap.
    apply (sorted_keys_elem rangeKeys sortStrings Hkeys Hsort).
    rewrite <- Hpaths. by apply list_elem_of_fmap_2. }
  destruct (syncedAt_listed rangeMark r (pathMap lt) t (DirResult.Path x)
              Hmark Hnd Hfirst Hremote Hin) as (b & Hb & Hiff).
  rewrite (Hsynced x Hx) in Hb. injection Hb as <-. split.
  - intros Htrue q Hq Hc.
    apply (buildLocalTree_dom fs lt q Hlocal).
    destruct (pathMap lt !! q) eqn:E; [by eexists|].
    assert (DirResult.Synced x = false); [|congruence].
    apply Hiff. by exists q.
  - intros Hall. destruct (DirResult.Synced x); [done|].
    destruct (proj1 Hiff eq_refl) as (q & Hq & Hnone & Hc).
    pose proof (Hall q Hq Hc) as Hlocalq.
    apply (buildLocalTree_dom fs lt q Hlocal) in Hlocalq as [a Ha].
    congruence.
Qed.

Lemma dirs_synced_iff_subtree_local_witness :
  Forall (fun x =>
    DirResult.Synced x = true <->
    forall q, q ∈ lines exampleListing ->
              pathChain (lines exampleListing) (DirResult.Path x) q ->
              q ∈ walkedDirs (absDir exampleFS) (walk exampleFS))
    exampleDirs.
Proof.
  apply Forall_forall.
  apply (dirs_synced_iff_subtree_local map_to_list map_to_list
           (merge_sort String.le) exampleFS exampleListing exampleDirs).
  - intros m. reflexivity.
  - intros m. reflexivity.
  - apply merge_sort_strings.
  - apply exampleListing_NoDup.
  - apply exampleListing_parentFirst.
  - reflexivity.
Defined.

(** ** The registry through a job's life *)

Lemma CancelSync_alter (reg : gmap string Sync.t) (path : string) :
  (CancelSync reg (Ok path)).2 = alter Sync.cancel path reg.
Proof.
  unfold CancelSync. simpl. apply map_eq. intros q. rewrite lookup_alter.
  destruct (reg !! path) as [j|] eqn:E.
  - rewrite lookup_insert.
    destruct (decide (path = q)) as [<-|]; [by rewrite ?E|done].
  - destruct (decide (path = q)) as [<-|]; [by rewrite ?E|done].
Qed.

(** X9. [CancelSync] answers 200 whether or not a job is registered for
    the path.  It cancels the job registered for exactly that path and
    touches no other entry, so jobs on paths above or below it go on; with
    no such job the registry is left as it was.  Cancelling does not
    remove the job: the same paths stay registered and the state stays
    reachable with the same tasks; a second cancel changes nothing
    more. *)
Theorem cancel_only_exact_path (s : system) (path : string) :
  reachable s ->
  let out := CancelSync (Data s) (Ok path) in
  out.1 = JSON 200 ""
  /\ out.2 !! path = Sync.cancel <$> Data s !! path
  /\ (forall p, p <> path -> out.2 !! p = Data s !! p)
  /\ (forall p, is_Some (out.2 !! p) <-> is_Some (Data s !! p))
  /\ (Data s !! path = None -> out.2 = Data s)
  /\ (CancelSync out.2 (Ok path)).2 = out.2
  /\ reachable {| Data := out.2; tasks := tasks s |}.
Proof.
  intros Hs out. unfold out. rewrite !CancelSync_alter.
  split; [done|]. split; [|split; [|split; [|split; [|split]]]].
  - rewrite lookup_alter. by case_decide.
  - intros p Hp. rewrite lookup_alter. case_decide; [congruence|done].
  - intros p. rewrite lookup_alter. case_decide; [|done].
    subst p. apply fmap_is_Some.
  - intros Hnone. apply map_eq. intros q. rewrite lookup_alter.
    case_decide; [subst; by rewrite Hnone|done].
  - apply map_eq. intros q. rewrite !lookup_alter.
    repeat case_decide; try done. by destruct (Data s !! path).
  - apply (reachable_step s); [done|apply step_cancel].
Qed.

Lemma cancel_only_exact_path_witness :
  (CancelSync (Data twoJobs) (Ok "/a")).2 !! "/c" = Data twoJobs !! "/c"
  /\ Sync.Cancelled <$> (CancelSync (Data twoJobs) (Ok "/a")).2 !! "/a"
     = Some true.
Proof.
  destruct (cancel_only_exact_path twoJobs "/a" twoJobs_reachable)
    as (_ & Hcancel & Hother & _).
  split.
  - by apply Hother.
  - rewrite Hcancel. reflexivity.
Defined.

(** X10. A start that is accepted and the return of its task cancel out:
    when [sync] has inserted the job and [startSync] has returned, whatever
    happened to the directory, the pipes and the process, the registry is
    what it was before, and the same path can be started again. *)
Theorem start_then_return_restores (s : system) (path : string) (w : world) :
  reachable s -> (sync (Data s) path).1.1 = true ->
  (startSync w (sync (Data s) path).1.2 (newSync path)).2 = Data s
  /\ (sync (startSync w (sync (Data s) path).1.2 (newSync path)).2 path).1.1
     = true.
Proof.
  intros Hs Hok.
  assert (Hrestore :
    (startSync w (sync (Data s) path).1.2 (newSync path)).2 = Data s).
  { unfold sync in *.
    destruct (scan path (map_to_list (Data s))) eqn:Hscan; [done|].
    simpl. apply delete_insert_id.
    destruct (Data s !! path) as [v|] eqn:E; [|done].
    exfalso. apply (proj1 (scan_registry_false _ _) Hscan _ _ E).
    left. by apply (inv_key _ (reachable_invariant _ Hs)). }
  split; [done|]. by rewrite Hrestore.
Qed.

Lemma start_then_return_restores_witness :
  (startSync {| mkdirAll := None; stderrPipe := None; stdoutPipe := None;
                run := Some "exit status 23" |}
     (sync (Data twoJobs) "/b").1.2 (newSync "/b")).2 = Data twoJobs.
Proof.
  apply (start_then_return_restores twoJobs "/b").
  - apply twoJobs_reachable.
  - by vm_compute.
Defined.

(** X11. The empty path clashes with everything: while a job with the
    empty path is registered every start and every removal is refused, and
    a start or removal of the empty path is refused as long as any job is
    registered. *)
Theorem empty_path_blocks_everything (reg : gmap string Sync.t)
    (k : string) (v : Sync.t) (path : string) (removeAll : fsError) :
  reg !! k = Some v -> Sync.Path v = "" \/ path = "" ->
  sync reg path = (false, reg, None)
  /\ remove removeAll reg path = (false, None, []).
Proof.
  intros Hk Hempty.
  assert (Hscan : scan path (map_to_list reg) = true).
  { apply scan_registry. exists k, v. split; [done|].
    destruct Hempty as [Hv| ->].
    - right. right. rewrite Hv. by exists path.
    - right. left. by exists (Sync.Path v). }
  unfold sync, remove. by rewrite Hscan.
Qed.

Lemma empty_path_blocks_everything_witness :
  sync (Data twoJobs) "" = (false, Data twoJobs, None)
  /\ remove None (Data twoJobs) "" = (false, None, []).
Proof.
  apply (empty_path_blocks_everything (Data twoJobs) "/a" (newSync "/a")).
  - by vm_compute.
  - by right.
Defined.

(** ** The progress reader on a whole stream *)

Lemma progressToken_Cancelled (a : arch) (F : string -> option Z)
    (text : string) (j : Sync.t) :
  Sync.Cancelled (progressToken a F text j).1 = Sync.Cancelled j.
Proof.
  unfold progressToken.
  repeat (case_match; simpl; try done).
Qed.

Lemma progressToken_log (a : arch) (F : string -> option Z)
    (text : string) (j : Sync.t) :
  (progressToken a F text j).2 = []
  \/ (progressToken a F text j = (j, [text])
      /\ (endsWith text "%" \/ endsWith text "/s"
          \/ ~ hasSubstring text ":")).
Proof.
  unfold progressToken.
  destruct (strings.HasSuffix text "%") eqn:E1.
  { apply HasSuffix_spec in E1. case_match; [by left|right]. split; [done|by left]. }
  destruct (strings.HasSuffix text "/s") eqn:E2.
  { apply HasSuffix_spec in E2. case_match; [by left|right].
    split; [done|]. right. by left. }
  destruct (strings.Contains text ":") eqn:E3; [by left|].
  apply Contains_false in E3. case_match; [by left|right].
  split; [done|]. right. by right.
Qed.

(** X12. Whatever the transfer process prints, the progress reader never
    changes the job's path nor its cancellation state; what it logs are
    tokens of the stream, in their order, and a token with a colon that
    ends neither in [%] nor in [/s] is never logged. *)
Theorem progress_reader_frame (a : arch) (F : string -> option Z)
    (tokens : list string) (j : Sync.t) :
  let out := progressReader a F tokens j in
  Sync.Path out.1 = Sync.Path j
  /\ Sync.Cancelled out.1 = Sync.Cancelled j
  /\ out.2 `sublist_of` tokens
  /\ forall text, text ∈ out.2 ->
       endsWith text "%" \/ endsWith text "/s" \/ ~ hasSubstring text ":".
Proof.
  revert j. induction tokens as [|text rest IH]; intros j; simpl.
  - repeat split; [done|]. intros text H. by apply elem_of_nil in H.
  - pose proof (progressToken_Path a F text j) as Hpath.
    pose proof (progressToken_Cancelled a F text j) as Hcancel.
    pose proof (progressToken_log a F text j) as Hlog.
    destruct (progressToken a F text j) as [j1 log1]. simpl in *.
    destruct (IH j1) as (Hp & Hc & Hsub & Hkind).
    destruct (progressReader a F rest j1) as [j2 log2]. simpl in *.
    split; [congruence|]. split; [congruence|].
    destruct Hlog as [->|[[= -> ->] Htext]]; simpl.
    + split; [by apply sublist_cons|done].
    + split; [by apply sublist_skip|].
      intros t [->|Ht]%elem_of_cons; [done|by apply Hkind].
Qed.

Lemma uint_nonnegative (a : arch) (v : Z) :
  (0 <= v <= maxInt a)%Z -> uint a v = v.
Proof.
  intros [Hlo Hhi]. unfold uint, maxInt in *.
  assert (2 ^ bits a = 2 * 2 ^ (bits a - 1))%Z as Hpow.
  { rewrite <- Z.pow_succ_r by (destruct a; simpl; lia). f_equal. lia. }
  apply Z.mod_small. lia.
Qed.

(** X13. A count that parses as a non-negative integer is stored as it
    is, with no upper check: [body%] sets [Progress] to the parsed value
    even above 100, and a token that is no percentage, no speed and no
    time sets [Downloaded] to the value of the token without its commas.
    Every other field of the job stays as it was and nothing is logged. *)
Theorem nonnegative_counts_stored_as_parsed (a : arch)
    (F : string -> option Z) (text : string) (v : Z) (j : Sync.t) :
  strconv.Atoi a (withoutByte ","%char text) = Some v -> (0 <= v)%Z ->
  ~ endsWith text "%" -> ~ endsWith text "/s" -> ~ hasSubstring text ":" ->
  progressToken a F text j
  = ({| Sync.Path := Sync.Path j;
        Sync.Progress := Sync.Progress j;
        Sync.Speed := Sync.Speed j;
        Sync.Downloaded := v;
        Sync.TimeLeft := Sync.TimeLeft j;
        Sync.Cancelled := Sync.Cancelled j |}, [])
  /\ (strconv.Atoi a text = Some v ->
      progressToken a F (text ++ "%") j
      = ({| Sync.Path := Sync.Path j;
            Sync.Progress := v;
            Sync.Speed := Sync.Speed j;
            Sync.Downloaded := Sync.Downloaded j;
            Sync.TimeLeft := Sync.TimeLeft j;
            Sync.Cancelled := Sync.Cancelled j |}, [])).
Proof.
  intros Hparse Hpos Hpct%HasSuffix_false Hs%HasSuffix_false Hc%Contains_false.
  assert (Hv : uint a v = v).
  { apply uint_nonnegative. apply Atoi_range in Hparse. lia. }
  split.
  - unfold progressToken. by rewrite Hpct, Hs, Hc, ReplaceAll_comma, Hparse, Hv.
  - intros Hparse'. unfold progressToken.
    by rewrite HasSuffix_app, TrimSuffix_app, Hparse', Hv.
Qed.

Lemma nonnegative_counts_stored_as_parsed_witness :
  progressToken Arch64 noSizes "1,250" (Sync.mk "/a" 7 8 9 "0:01" false)
  = (Sync.mk "/a" 7 8 1250 "0:01" false, [])
  /\ progressToken Arch64 noSizes "250%" (Sync.mk "/a" 7 8 9 "0:01" false)
     = (Sync.mk "/a" 250 8 9 "0:01" false, []).
Proof.
  split.
  - apply (nonnegative_counts_stored_as_parsed Arch64 noSizes "1,250" 1250
             (Sync.mk "/a" 7 8 9 "0:01" false)).
    + reflexivity.
    + lia.
    + intros Hb%HasSuffix_spec. by vm_compute in Hb.
    + intros Hb%HasSuffix_spec. by vm_compute in Hb.
    + intros Hb%Contains_spec. by vm_compute in Hb.
  - assert (H : strconv.Atoi Arch64 "250" = Some 250%Z ->
                progressToken Arch64 noSizes "250%"
                  (Sync.mk "/a" 7 8 9 "0:01" false)
                = (Sync.mk "/a" 250 8 9 "0:01" false, [])).
    { apply (nonnegative_counts_stored_as_parsed Arch64 noSizes "250" 250
               (Sync.mk "/a" 7 8 9 "0:01" false)).
      - reflexivity.
      - lia.
      - intros Hb%HasSuffix_spec. by vm_compute in Hb.
      - intros Hb%HasSuffix_spec. by vm_compute in Hb.
      - intros Hb%Contains_spec. by vm_compute in Hb. }
    by apply H.
Defined.

(** ** What [startSync] launches *)

(** X14. [startSync] always starts with [os.MkdirAll].  It launches the
    cancellation watcher exactly when the directory could be made, and the
    progress reader and the transfer process exactly when in addition both
    pipes could be set up; it calls [cancel] on the process context itself
    only when the directory could not be made, so after a pipe failure the
    watcher is left without a process. *)
Theorem supervisor_launch_order (w : world) :
  head (startSync_body w) = Some MkdirAll
  /\ (GoWatcher ∈ startSync_body w <-> mkdirAll w = None)
  /\ (Run ∈ startSync_body w <->
      mkdirAll w = None /\ stderrPipe w = None /\ stdoutPipe w = None)
  /\ (GoProgressReader ∈ startSync_body w <-> Run ∈ startSync_body w)
  /\ (CancelProcess ∈ startSync_body w <-> is_Some (mkdirAll w))
  /\ (mkdirAll w = None ->
      is_Some (stderrPipe w) \/ is_Some (stdoutPipe w) ->
      GoWatcher ∈ startSync_body w /\ (Run ∉ startSync_body w)
      /\ (CancelProcess ∉ startSync_body w)).
Proof.
  unfold startSync_body.
  destruct (mkdirAll w) as [e1|]; destruct (stderrPipe w) as [e2|];
    destruct (stdoutPipe w) as [e3|]; destruct (run w) as [e4|]; simpl;
    repeat split; intros;
    repeat match goal with
    | H : _ ∈ _ :: _ |- _ => apply elem_of_cons in H as [H|H]; try done
    | H : _ ∈ [] |- _ => by apply elem_of_nil in H
    | H : _ /\ _ |- _ => destruct H
    | H : is_Some None |- _ => by destruct H
    | H : _ \/ _ |- _ => destruct H
    | |- is_Some (Some _) => by eexists
    | |- _ ∈ _ => by repeat constructor
    | |- _ ∉ _ => intros ?
    end; try done.
Qed.

(** ** [testConfig] *)

Lemma errors_Join_None (errs : list string) :
  errors_Join errs = None <-> errs = [].
Proof. by destruct errs. Qed.

(** X15. [testConfig] accepts a configuration exactly when the data path,
    the remote user, the two key files and the known-hosts file are not
    empty and the remote port is not zero.  It never looks at the remote
    host (nor at the listening host, port and log level), and an empty
    remote user is reported twice. *)
Theorem config_check (config : Config) :
  (testConfig config = None <->
   DataPath config <> "" /\ RemoteUser config <> ""
   /\ RemotePort config <> 0%Z /\ RsyncSSHKey config <> ""
   /\ LsSSHKey config <> "" /\ KnownHosts config <> "")
  /\ (forall host port level rhost,
        testConfig (withUnchecked host port level rhost config)
        = testConfig config)
  /\ (RemoteUser config = "" ->
      length (filter (eq "remote user must be specified")
                (configErrors config)) = 2).
Proof.
  split; [|split].
  - unfold testConfig. rewrite errors_Join_None. unfold configErrors, appendIf.
    destruct (String.eqb_spec (DataPath config) "");
      destruct (String.eqb_spec (RemoteUser config) "");
      destruct (Z.eqb_spec (RemotePort config) 0);
      destruct (String.eqb_spec (RsyncSSHKey config) "");
      destruct (String.eqb_spec (LsSSHKey config) "");
      destruct (String.eqb_spec (KnownHosts config) "");
      simpl; split; try done; intros (? & ? & ? & ? & ? & ?); done.
  - done.
  - intros Huser. unfold configErrors, appendIf. rewrite Huser. simpl.
    destruct (String.eqb (DataPath config) "");
      destruct (RemotePort config =? 0)%Z;
      destruct (String.eqb (RsyncSSHKey config) "");
      destruct (String.eqb (LsSSHKey config) "");
      destruct (String.eqb (KnownHosts config) ""); by vm_compute.
Qed.

(** ** The generator: [frontend/generate.go] *)

(** X16. The generator writes the embedding file only when it was given
    exactly three arguments and the front-end build was skipped or
    succeeded; the file is the output argument and its text names the
    package and the cleaned path of the build directory.  With another
    number of arguments it does nothing but exit with the usage message,
    and with [SKIP_NPM] set it never runs the build. *)
Theorem generator_writes_after_build (w : generate.world) :
  (forall name data, generate.WriteFile name data ∈ generate.main w ->
     exists program package ui,
       generate.Args w = [program; package; ui; name]
       /\ (generate.skipNpm w = true \/ generate.npmRun w = None)
       /\ data = ("package " ++ package ++ generate.header
                  ++ filepath.Join [ui; "build/*"] ++ generate.footer)%string)
  /\ (length (generate.Args w) <> 4 ->
      generate.main w
      = [generate.Fatal "Usage: generate go_package ./ui_path ./output_gen.go"])
  /\ (generate.skipNpm w = true ->
      forall dir, generate.NpmRunBuild dir ∉ generate.main w)
  /\ (generate.skipNpm w = false -> is_Some (generate.npmRun w) ->
      forall name data, generate.WriteFile name data ∉ generate.main w).
Proof.
  unfold generate.main.
  destruct (generate.Args w) as [|a0 [|a1 [|a2 [|a3 [|a4 rest]]]]];
    destruct (generate.skipNpm w); destruct (generate.npmRun w) as [e|];
    destruct (generate.writeFile w) as [e'|]; simpl;
    repeat split; intros;
    repeat match goal with
    | H : _ ∈ _ :: _ |- _ => apply elem_of_cons in H as [H|H]; try done
    | H : _ ∈ [] |- _ => by apply elem_of_nil in H
    | H : is_Some None |- _ => by destruct H
    | H : generate.WriteFile _ _ = generate.WriteFile _ _ |- _ =>
        injection H as -> ->
    | |- _ ∉ _ => intros ?
    end; try done; try (simpl in *; lia);
    try (eexists _, _, _; split; [done|]; split; [by auto|done]).
Qed.

(** ** The handlers on every input *)

(** X17. [Remove] touches the filesystem only with one [os.RemoveAll] of
    the requested path, and only when the request could be read, the path
    is a directory of the local walk and no registered job clashes with
    it; it answers 200 only when that call was made and succeeded. *)
Theorem remove_deletes_only_validated (fs : localFS) (removeAll : fsError)
    (reg : gmap string Sync.t) (bind : result string) :
  let out := Remove fs removeAll reg bind in
  (out.2 = []
   \/ exists path,
        bind = Ok path /\ out.2 = [RemoveAll path]
        /\ path ∈ walkedDirs (absDir fs) (walk fs)
        /\ forall k v, reg !! k = Some v -> ~ clashes path v)
  /\ (out.1 = JSON 200 "" -> out.2 <> [] /\ removeAll = None).
Proof.
  unfold Remove. destruct bind as [path|e]; [|by split; [left|]].
  destruct (buildLocalTree fs) as [lt|e] eqn:Hlocal; [|by split; [left|]].
  destruct (pathMap lt !! path) as [a|] eqn:Hpath; [|by split; [left|]].
  unfold remove.
  destruct (scan path (map_to_list reg)) eqn:Hscan; [by split; [left|]|].
  assert (Hvalid : path ∈ walkedDirs (absDir fs) (walk fs)).
  { apply (buildLocalTree_dom fs lt path Hlocal). by eexists. }
  pose proof (proj1 (scan_registry_false _ _) Hscan) as Hfree.
  destruct removeAll as [e|]; simpl.
  - split; [|done]. right. by exists path.
  - split; [|done]. right. by exists path.
Qed.

(** X18. [StartSync] always answers.  It starts a job exactly when it
    answers 200, and then the path is a line of a listing that succeeded
    and the registry has gained the entry for it; with any other answer the
    registry is left as it was. *)
Theorem start_registers_only_on_200
    (range : gmap string nat -> list (string * nat)) (r : remote)
    (reg : gmap string Sync.t) (bind : result string) :
  (forall m, range m ≡ₚ map_to_list m) ->
  exists resp reg' started,
    StartSync range r reg bind = Some (resp, reg', started)
    /\ (resp = JSON 200 "" <-> is_Some started)
    /\ (resp <> JSON 200 "" -> reg' = reg)
    /\ (forall j, started = Some j ->
          exists path, bind = Ok path /\ j = newSync path
                       /\ listingSucceeds r /\ path ∈ lines r
                       /\ reg' = <[path := j]> reg).
Proof.
  intros Hrange. unfold StartSync.
  destruct bind as [path|e].
  2:{ eexists _, _, _. split; [done|]. repeat split; try done;
      by intros [? ?]. }
  destruct (buildRemoteTree_cases range r ∅ Hrange)
    as [(Hok & h & Hrun & _)|(_ & e & Hrun)]; rewrite Hrun.
  2:{ eexists _, _, _. split; [done|]. repeat split; try done;
      by intros [? ?]. }
  simpl. destruct (pathMap (scanLines (lines r)) !! path) as [a|] eqn:Hpath.
  2:{ eexists _, _, _. split; [done|]. repeat split; try done;
      by intros [? ?]. }
  unfold sync. destruct (scan path (map_to_list reg)) eqn:Hscan.
  { eexists _, _, _. split; [done|]. repeat split; try done;
    by intros [? ?]. }
  eexists _, _, _. split; [done|].
  split; [split; [by eexists|done]|]. split; [done|].
  intros j [= <-]. exists path.
  split; [done|]. split; [done|]. split; [done|]. split; [|done].
  apply scanLines_dom. by eexists.
Qed.

Lemma start_registers_only_on_200_witness :
  exists resp reg' started,
    StartSync map_to_list exampleListing (Data twoJobs) (Ok "/a/b")
    = Some (resp, reg', started)
    /\ (resp <> JSON 200 "" -> reg' = Data twoJobs).
Proof.
  destruct (start_registers_only_on_200 map_to_list exampleListing
              (Data twoJobs) (Ok "/a/b") (fun m => reflexivity _))
    as (resp & reg' & started & Hrun & _ & Hsame & _).
  exists resp, reg', started. exact (conj Hrun Hsame).
Defined.

(** ** The root of the data directory *)

Lemma rootedPath_root (dir : string) : rootedPath dir dir = "/".
Proof.
  unfold rootedPath.
  assert (strings.TrimPrefix dir dir = "") as ->; [|done].
  pose proof (TrimPrefix_app dir "") as H.
  by rewrite string_app_nil_r in H.
Qed.

Lemma walkedDirs_elem (dir : string) (entries : list walkEntry)
    (e : walkEntry) :
  e ∈ entries -> walkIsDir e = true ->
  rootedPath dir (walkPath e) ∈ walkedDirs dir entries.
Proof.
  induction entries as [|e' rest IH]; intros Hin Hdir.
  - by apply elem_of_nil in Hin.
  - simpl. apply elem_of_cons in Hin as [<-|Hin].
    + rewrite Hdir. by left.
    + destruct (walkIsDir e'); [right|]; by apply IH.
Qed.

(** X19. The root of the data directory is a valid path for [Remove]: a
    walk that succeeds and visits the root enters it as [/], so with no
    job registered a removal of [/] calls [os.RemoveAll] on the whole data
    directory, while any registered job with an absolute path makes the
    same request end in 409 with nothing deleted. *)
Theorem root_is_removable (fs : localFS) (removeAll : fsError)
    (e : walkEntry) :
  noWalkError fs -> e ∈ walk fs -> walkIsDir e = true ->
  walkPath e = absDir fs ->
  Remove fs removeAll ∅ (Ok "/")
  = (match removeAll with
     | Some err => Failed ("remove path: remove all: " ++ err)%string
     | None => JSON 200 ""
     end, [RemoveAll "/"])
  /\ (forall (reg : gmap string Sync.t) k v,
        reg !! k = Some v -> strings.HasPrefix (Sync.Path v) "/" = true ->
        Remove fs removeAll reg (Ok "/")
        = (JSON 409 "sync in progress", [])).
Proof.
  intros Hwalk Hin Hdir Hroot.
  destruct (local_tree_cases fs) as [(_ & lt & Hlocal)|(Hnot & _)]; [|done].
  assert (Hvalid : is_Some (pathMap lt !! "/")).
  { apply (buildLocalTree_dom fs lt "/" Hlocal).
    rewrite <- (rootedPath_root (absDir fs)), <- Hroot.
    by apply walkedDirs_elem. }
  destruct Hvalid as [a Ha]. unfold Remove. rewrite Hlocal, Ha. split.
  - unfold remove. rewrite map_to_list_empty. simpl. by destruct removeAll.
  - intros reg k v Hk Hv.
    assert (Hscan : scan "/" (map_to_list reg) = true).
    { apply scan_registry. exists k, v. split; [done|].
      right. left. by apply HasPrefix_spec. }
    unfold remove. by rewrite Hscan.
Qed.

Lemma root_is_removable_witness :
  Remove exampleFS None ∅ (Ok "/") = (JSON 200 "", [RemoveAll "/"]).
Proof.
  destruct (root_is_removable exampleFS None
              {| walkPath := "/data"; walkName := "data";
                 walkIsDir := true; walkErr := None |}) as [H _].
  - split; [done|]. by repeat constructor.
  - by left.
  - done.
  - done.
  - exact H.
Defined.
